(** * simple-operator: the [Simple] resource and its reconciler

    A shallow embedding of the Go sources of the operator:

    - [api/v1/simple_types.go]: the [Simple] custom resource, its JSON
      form and the schema that the kubebuilder markers generate;
    - the [Reconcile] function of the controller, as the project's README
      gives it (section "Controller Logic").

    [Reconcile] talks to the API server through the [client.Client]
    interface that [SimpleReconciler] embeds.  It is embedded as a program
    over the three calls it makes ([Get], [Status().Update], [log.Info]);
    a client gives the calls their meaning.  An in-memory API server with
    optimistic concurrency on [resourceVersion] is the client used for the
    statements about the stored records.

    The metric registry, the exporter and the certificate watcher of the
    specification have no source here; they are modelled from the
    specification, and every such definition says so. *)

From Stdlib Require Import Ascii.
From stdpp Require Import base strings gmap list sorting pretty.

Local Open Scope Z_scope.

(** ** k8s.io/apimachinery: the pieces the sources use *)

Module types.

Record NamespacedName := { Namespace : string; Name : string }.

#[global] Instance NamespacedName_eq_dec : EqDecision NamespacedName.
Proof. solve_decision. Defined.

#[global] Instance NamespacedName_countable : Countable NamespacedName.
Proof.
  refine (inj_countable' (λ k, (Namespace k, Name k))
            (λ p, {| Namespace := p.1; Name := p.2 |}) _).
  by intros [].
Defined.

End types.

Module metav1.

(** [ObjectMeta], restricted to the fields that the controller or the
    optimistic-concurrency protocol read.  [ResourceVersion] is the opaque
    token of the store; it is a number here, as etcd revisions are. *)
Record ObjectMeta := {
  Name : string;
  Namespace : string;
  Generation : Z;
  ResourceVersion : N;
}.

#[global] Instance ObjectMeta_eq_dec : EqDecision ObjectMeta.
Proof. solve_decision. Defined.

End metav1.

(** ** api/v1/simple_types.go *)

Module v1.

(** [SimpleSpec]: [Message string `json:"message"`],
    marker [+kubebuilder:validation:MinLength=1]. *)
Record SimpleSpec := { Message : string }.

(** [SimpleStatus]: [Replied bool `json:"replied,omitempty"`],
    marker [+optional]. *)
Record SimpleStatus := { Replied : bool }.

(** [Simple]: object metadata, [Spec] ([+required]) and [Status]
    ([+optional]); markers [+kubebuilder:object:root=true] and
    [+kubebuilder:subresource:status]. *)
Record Simple := {
  ObjectMeta : metav1.ObjectMeta;
  Spec : SimpleSpec;
  Status : SimpleStatus;
}.

#[global] Instance SimpleSpec_eq_dec : EqDecision SimpleSpec.
Proof. solve_decision. Defined.
#[global] Instance SimpleStatus_eq_dec : EqDecision SimpleStatus.
Proof. solve_decision. Defined.
#[global] Instance Simple_eq_dec : EqDecision Simple.
Proof. solve_decision. Defined.


(** The key under which the store holds an object. *)
Definition keyOf (o : Simple) : types.NamespacedName :=
  {| types.Namespace := metav1.Namespace (ObjectMeta o);
     types.Name := metav1.Name (ObjectMeta o) |}.

(** [simple.Status.Replied = b] *)
Definition setReplied (b : bool) (o : Simple) : Simple :=
  {| ObjectMeta := ObjectMeta o; Spec := Spec o; Status := {| Replied := b |} |}.

(** *** The JSON form

    A decoded JSON document, as far as the struct tags of [SimpleSpec] and
    [SimpleStatus] look at it: every member may be absent. *)
Record RawSpec := { rawMessage : option string }.
Record RawStatus := { rawReplied : option bool }.
Record RawSimple := {
  rawMeta : metav1.ObjectMeta;
  rawSpec : option RawSpec;
  rawStatus : option RawStatus;
}.

(** The schema of the generated CRD.  [Spec] carries [+required];
    [message] has no [omitempty] and no [+optional], so it is listed as
    required, and [MinLength=1] bounds its length from below.  [status] and
    [replied] are [+optional]: any boolean, or nothing. *)
Definition validateSpec (s : RawSpec) : bool :=
  match rawMessage s with
  | Some m => bool_decide (1 ≤ String.length m)%nat
  | None => false
  end.

Definition validate (r : RawSimple) : bool :=
  match rawSpec r with
  | Some s => validateSpec s
  | None => false
  end.

(** [json.Unmarshal] into the Go structs: an absent member leaves the zero
    value of its field, the empty string or [false]. *)
Definition decodeSpec (s : option RawSpec) : SimpleSpec :=
  {| Message := default EmptyString (s ≫= rawMessage) |}.

Definition decodeStatus (s : option RawStatus) : SimpleStatus :=
  {| Replied := default false (s ≫= rawReplied) |}.

Definition decode (r : RawSimple) : Simple :=
  {| ObjectMeta := rawMeta r;
     Spec := decodeSpec (rawSpec r);
     Status := decodeStatus (rawStatus r) |}.

(** [json.Marshal]: [omitempty] drops [replied] when it is [false];
    [message] is always written. *)
Definition encodeSpec (s : SimpleSpec) : RawSpec :=
  {| rawMessage := Some (Message s) |}.

Definition encodeStatus (s : SimpleStatus) : RawStatus :=
  {| rawReplied := if Replied s then Some true else None |}.

Definition encode (o : Simple) : RawSimple :=
  {| rawMeta := ObjectMeta o;
     rawSpec := Some (encodeSpec (Spec o));
     rawStatus := Some (encodeStatus (Status o)) |}.

End v1.

(** ** sigs.k8s.io/controller-runtime: results, errors, the client *)

Module ctrl.

(** [ctrl.Result]; [ctrl.Result{}] is [emptyResult]. *)
Record Result := { Requeue : bool; RequeueAfter : Z }.

Definition emptyResult : Result := {| Requeue := false; RequeueAfter := 0 |}.

(** [ctrl.Request] *)
Record Request := { NamespacedName : types.NamespacedName }.

#[global] Instance Result_eq_dec : EqDecision Result.
Proof. solve_decision. Defined.

End ctrl.

Module client.

(** The errors of the API machinery, by their status reason. *)
Inductive error :=
| ErrNotFound
| ErrConflict
| ErrOther (reason : string).

#[global] Instance error_eq_dec : EqDecision error.
Proof. solve_decision. Defined.

Definition IsNotFound (e : error) : bool :=
  match e with ErrNotFound => true | _ => false end.

(** [client.IgnoreNotFound]: [nil] on a not-found error, the error
    otherwise. *)
Definition IgnoreNotFound (e : error) : option error :=
  if IsNotFound e then None else Some e.

(** What [Get] leaves behind: the error, or the object written into the
    caller's variable. *)
Definition GetResult : Type := error + v1.Simple.

(** Programs over the calls that the controller makes.  Each node is one
    call, its continuation receives what the call returns. *)
Inductive Prog (R : Type) : Type :=
| Return (r : R)
| CallGet (key : types.NamespacedName) (k : GetResult → Prog R)
| CallStatusUpdate (obj : v1.Simple) (k : option error → Prog R)
| CallLogInfo (msg : string) (keysAndValues : list (string * string))
    (k : Prog R).

Arguments Return {R} r.
Arguments CallGet {R} key k.
Arguments CallStatusUpdate {R} obj k.
Arguments CallLogInfo {R} msg keysAndValues k.

Fixpoint bind {A B : Type} (p : Prog A) (f : A → Prog B) : Prog B :=
  match p with
  | Return a => f a
  | CallGet key k => CallGet key (λ r, bind (k r) f)
  | CallStatusUpdate obj k => CallStatusUpdate obj (λ r, bind (k r) f)
  | CallLogInfo msg kvs k => CallLogInfo msg kvs (bind k f)
  end.

#[global] Instance Prog_ret : MRet Prog := @Return.
#[global] Instance Prog_bind : MBind Prog := λ A B f p, bind p f.

(** [r.Get(ctx, key, &obj)] *)
Definition Get (key : types.NamespacedName) : Prog GetResult :=
  CallGet key Return.

(** [r.Status().Update(ctx, &obj)] *)
Definition StatusUpdate (obj : v1.Simple) : Prog (option error) :=
  CallStatusUpdate obj Return.

(** [log.Info(msg, keysAndValues...)] *)
Definition LogInfo (msg : string) (kvs : list (string * string)) : Prog unit :=
  CallLogInfo msg kvs (Return ()).

(** One call as the client saw it, with what it answered. *)
Inductive Call :=
| GetCall (key : types.NamespacedName) (res : GetResult)
| StatusUpdateCall (obj : v1.Simple) (res : option error)
| LogInfoCall (msg : string) (keysAndValues : list (string * string)).

(** A client: an implementation of the three calls over its own state. *)
Record Client (W : Type) := {
  doGet : types.NamespacedName → W → GetResult * W;
  doStatusUpdate : v1.Simple → W → option error * W;
  doLogInfo : string → list (string * string) → W → W;
}.

Arguments doGet {W} _ _ _.
Arguments doStatusUpdate {W} _ _ _.
Arguments doLogInfo {W} _ _ _ _.

(** What one run of a program yields. *)
Record Outcome (W R : Type) := {
  result : R;
  final : W;
  calls : list Call;
}.

Arguments result {W R} _.
Arguments final {W R} _.
Arguments calls {W R} _.

(** Running a program against a client, from state [w]; the calls are
    recorded in the order in which they were made. *)
Fixpoint runFrom {W R : Type} (c : Client W) (p : Prog R) (w : W)
    (done : list Call) : Outcome W R :=
  match p with
  | Return r => {| result := r; final := w; calls := done |}
  | CallGet key k =>
      let '(res, w') := doGet c key w in
      runFrom c (k res) w' (done ++ [GetCall key res])
  | CallStatusUpdate obj k =>
      let '(res, w') := doStatusUpdate c obj w in
      runFrom c (k res) w' (done ++ [StatusUpdateCall obj res])
  | CallLogInfo msg kvs k =>
      runFrom c k (doLogInfo c msg kvs w) (done ++ [LogInfoCall msg kvs])
  end.

Definition run {W R : Type} (c : Client W) (p : Prog R) (w : W) : Outcome W R :=
  runFrom c p w [].

(** The writes among the calls: [Status().Update] is the only call of the
    interface used here that can change a stored object. *)
Definition isWrite (c : Call) : bool :=
  match c with StatusUpdateCall _ _ => true | _ => false end.

Definition isGet (c : Call) : bool :=
  match c with GetCall _ _ => true | _ => false end.

Definition writes (cs : list Call) : nat := length (filter isWrite cs).
Definition fetches (cs : list Call) : nat := length (filter isGet cs).

End client.

(** ** The controller *)

Module controller.

Import client.

(** [Reconcile], README section "Controller Logic":
<<
    var simple demov1.Simple
    if err := r.Get(ctx, req.NamespacedName, &simple); err != nil {
        return ctrl.Result{}, client.IgnoreNotFound(err)
    }
    log.Info("Hallo Welt!", "name", simple.Name, "message", simple.Spec.Message)
    if !simple.Status.Replied {
        simple.Status.Replied = true
        if err := r.Status().Update(ctx, &simple); err != nil {
            return ctrl.Result{}, err
        }
    }
    return ctrl.Result{}, nil
>> *)
Definition Reconcile (req : ctrl.Request) : Prog (ctrl.Result * option error) :=
  got ← Get (ctrl.NamespacedName req);
  match got with
  | inl err => mret (ctrl.emptyResult, IgnoreNotFound err)
  | inr simple =>
      LogInfo "Hallo Welt!"
        [("name", metav1.Name (v1.ObjectMeta simple));
         ("message", v1.Message (v1.Spec simple))];;
      if negb (v1.Replied (v1.Status simple)) then
        let simple := v1.setReplied true simple in
        upd ← StatusUpdate simple;
        match upd with
        | Some err => mret (ctrl.emptyResult, Some err)
        | None => mret (ctrl.emptyResult, None)
        end
      else mret (ctrl.emptyResult, None)
  end.

End controller.

(** ** An API server in memory

    The store behind the client: objects by key, with the optimistic
    concurrency of the real one.  Other actors and failures reach the
    controller between its calls; they are played from a schedule, one
    step before each call to the store.  The status of a [Simple] has one
    writer, the controller: the other actors edit specs and delete
    objects, through the main resource, where the status subresource
    makes the server ignore what a request says about the status. *)

Module apiserver.

Import client.

Inductive EnvStep :=
| Quiet
| EditSpec (key : types.NamespacedName) (message : string)
| DeleteObject (key : types.NamespacedName)
| Fail (err : error).

(** One sample of the metrics endpoint: a name and its label pairs. *)
Definition SampleKey : Type := string * list (string * string).

(** The state of the process and of the store it talks to.  [logs] are
    the lines written so far.  [samples] are the values that the metrics
    endpoint reports for the series of the operator itself, the
    [reconcile_total] and [reconcile_duration] of the specification among
    them; the series that the libraries keep on their own (REST client,
    work queue) are not part of it.  The calls of the client leave
    [samples] alone: a sample changes only where the controller records
    one. *)
Record World := {
  objects : gmap types.NamespacedName v1.Simple;
  logs : list (string * list (string * string));
  samples : gmap SampleKey Z;
  schedule : list EnvStep;
}.

Definition withObjects (objs : gmap types.NamespacedName v1.Simple)
    (w : World) : World :=
  {| objects := objs; logs := logs w; samples := samples w;
     schedule := schedule w |}.

(** A spec edit that the schema admits: new message, next generation,
    next resource version, status as it was. *)
Definition editSpec (message : string) (o : v1.Simple) : v1.Simple :=
  let m := v1.ObjectMeta o in
  {| v1.ObjectMeta :=
       {| metav1.Name := metav1.Name m;
          metav1.Namespace := metav1.Namespace m;
          metav1.Generation := metav1.Generation m + 1;
          metav1.ResourceVersion := (metav1.ResourceVersion m + 1)%N |};
     v1.Spec := {| v1.Message := message |};
     v1.Status := v1.Status o |}.

(** A status write that the server accepts: the status of the request,
    everything else as stored, next resource version. *)
Definition writeStatus (st : v1.SimpleStatus) (cur : v1.Simple) : v1.Simple :=
  let m := v1.ObjectMeta cur in
  {| v1.ObjectMeta :=
       {| metav1.Name := metav1.Name m;
          metav1.Namespace := metav1.Namespace m;
          metav1.Generation := metav1.Generation m;
          metav1.ResourceVersion := (metav1.ResourceVersion m + 1)%N |};
     v1.Spec := v1.Spec cur;
     v1.Status := st |}.

Definition interfere (s : EnvStep)
    (objs : gmap types.NamespacedName v1.Simple) :
    gmap types.NamespacedName v1.Simple :=
  match s with
  | Quiet | Fail _ => objs
  | EditSpec key message =>
      match objs !! key with
      | Some o =>
          if v1.validateSpec {| v1.rawMessage := Some message |}
          then <[key := editSpec message o]> objs
          else objs
      | None => objs
      end
  | DeleteObject key => delete key objs
  end.

(** The step of the environment that precedes the next call. *)
Definition nextStep (w : World) : EnvStep * World :=
  match schedule w with
  | [] => (Quiet, w)
  | s :: rest =>
      (s, {| objects := interfere s (objects w); logs := logs w;
             samples := samples w; schedule := rest |})
  end.

Definition failure (s : EnvStep) : option error :=
  match s with Fail e => Some e | _ => None end.

Definition get (key : types.NamespacedName) (w : World) : GetResult * World :=
  let '(s, w) := nextStep w in
  match failure s with
  | Some e => (inl e, w)
  | None =>
      match objects w !! key with
      | Some o => (inr o, w)
      | None => (inl ErrNotFound, w)
      end
  end.

Definition statusUpdate (obj : v1.Simple) (w : World) : option error * World :=
  let '(s, w) := nextStep w in
  match failure s with
  | Some e => (Some e, w)
  | None =>
      match objects w !! v1.keyOf obj with
      | Some cur =>
          if decide (metav1.ResourceVersion (v1.ObjectMeta cur)
                     = metav1.ResourceVersion (v1.ObjectMeta obj))
          then (None,
                withObjects
                  (<[v1.keyOf obj := writeStatus (v1.Status obj) cur]> (objects w)) w)
          else (Some ErrConflict, w)
      | None => (Some ErrNotFound, w)
      end
  end.

Definition logInfo (msg : string) (kvs : list (string * string)) (w : World) : World :=
  {| objects := objects w; logs := logs w ++ [(msg, kvs)];
     samples := samples w; schedule := schedule w |}.

Definition server : Client World :=
  {| doGet := get; doStatusUpdate := statusUpdate; doLogInfo := logInfo |}.

(** The value of a sample; a sample never recorded reads [0]. *)
Definition sampleValue (w : World) (name : string)
    (labels : list (string * string)) : Z :=
  default 0 (samples w !! (name, labels)).

Definition repliedAt (key : types.NamespacedName) (w : World) : option bool :=
  (λ o, v1.Replied (v1.Status o)) <$> objects w !! key.

Definition generationAt (key : types.NamespacedName) (w : World) : option Z :=
  (λ o, metav1.Generation (v1.ObjectMeta o)) <$> objects w !! key.

(** How [replied] of one key can change: the object goes away, nothing
    happens, or [false] becomes [true]. *)
Definition advances (a b : option bool) : Prop :=
  b = None ∨ b = a ∨ (a = Some false ∧ b = Some true).

(** One invocation of the controller, and a sequence of them: the worlds
    after each invocation, in order. *)
Definition reconcile (req : ctrl.Request) (w : World) :
    Outcome World (ctrl.Result * option error) :=
  run server (controller.Reconcile req) w.

Fixpoint reconcileAll (reqs : list ctrl.Request) (w : World) : list World :=
  match reqs with
  | [] => []
  | req :: rest =>
      let w' := final (reconcile req w) in
      w' :: reconcileAll rest w'
  end.

(** [replied] went from [false] to [true] between two worlds. *)
Definition flipped (key : types.NamespacedName) (w w' : World) : bool :=
  bool_decide (repliedAt key w = Some false ∧ repliedAt key w' = Some true).

(** The number of false-to-true transitions of [replied] along a history
    that starts in [w]; [flipsAt] counts those made while the object was
    at generation [g]. *)
Fixpoint flips (key : types.NamespacedName) (w : World) (ws : list World) : nat :=
  match ws with
  | [] => 0
  | w' :: rest => ((if flipped key w w' then 1 else 0) + flips key w' rest)%nat
  end.

Fixpoint flipsAt (key : types.NamespacedName) (g : Z) (w : World)
    (ws : list World) : nat :=
  match ws with
  | [] => 0
  | w' :: rest =>
      ((if flipped key w w' && bool_decide (generationAt key w' = Some g)
        then 1 else 0) + flipsAt key g w' rest)%nat
  end.

End apiserver.

(** ** Orders by comparison functions

    The exposition sorts by name and by label pairs; the order is the
    lexicographic one of [String.compare], lifted to pairs and lists. *)

Module ordering.

Class Comparator {A : Type} (cmp : A → A → comparison) := {
  cmp_refl x : cmp x x = Eq;
  cmp_eq x y : cmp x y = Eq → x = y;
  cmp_opp x y : cmp y x = CompOpp (cmp x y);
  cmp_lt_trans x y z : cmp x y = Lt → cmp y z = Lt → cmp x z = Lt;
}.

Definition pairCompare {A B : Type} (ca : A → A → comparison)
    (cb : B → B → comparison) (p q : A * B) : comparison :=
  match ca p.1 q.1 with
  | Eq => cb p.2 q.2
  | c => c
  end.

Fixpoint listCompare {A : Type} (ca : A → A → comparison)
    (l1 l2 : list A) : comparison :=
  match l1, l2 with
  | [], [] => Eq
  | [], _ :: _ => Lt
  | _ :: _, [] => Gt
  | x :: l1, y :: l2 =>
      match ca x y with
      | Eq => listCompare ca l1 l2
      | c => c
      end
  end.

(** [x] is not after [y]. *)
Definition leb {A : Type} (cmp : A → A → comparison) (x y : A) : bool :=
  match cmp x y with Gt => false | _ => true end.

End ordering.

(** ** The metric registry

    The metrics library is not among the sources at hand.  The registry,
    the exporter and the certificate watcher below follow the project's
    specification, sections 3 and 4.2 to 4.4. *)

Module registry.

(** Modelled from the spec: the kind of a [MetricSeries] (section 3), whose
    declaration is in the metrics library. *)
Inductive Kind := Counter | Gauge | Histogram.

#[global] Instance Kind_eq_dec : EqDecision Kind.
Proof. solve_decision. Defined.

Definition Labels : Type := list (string * string).

(** Modelled from the spec: the accumulator of a [MetricSeries], by kind
    (section 3: "kind, accumulator value(s)"); a histogram keeps the number
    of observations and their sum. *)
Inductive Value :=
| CounterValue (total : Z)
| GaugeValue (current : Z)
| HistogramValue (count : N) (sum : Z).

#[global] Instance Value_eq_dec : EqDecision Value.
Proof. solve_decision. Defined.

(** Modelled from the spec: the registry's part of the error taxonomy
    (section 7). *)
Inductive RegistryError :=
| DuplicateSeriesKind
| CardinalityExceeded.

(** Modelled from the spec: [MetricSample] (section 3), "an instantaneous
    observation (name, labels, value, kind)". *)
Record MetricSample := {
  sampleName : string;
  sampleLabels : Labels;
  sampleValue : Z;
  sampleKind : Kind;
}.

Definition labelCompare : string * string → string * string → comparison :=
  ordering.pairCompare String.compare String.compare.

Definition labelsCompare : Labels → Labels → comparison :=
  ordering.listCompare labelCompare.

Definition labelLe (a b : string * string) : Prop :=
  ordering.leb labelCompare a b = true.

#[global] Instance labelLe_dec a b : Decision (labelLe a b).
Proof. unfold labelLe. apply _. Defined.

(** Modelled from the spec: the identity of a series is "(name, sorted
    label set)" (section 3); the pairs are put in lexicographic order. *)
Definition sortLabels (ls : Labels) : Labels := merge_sort labelLe ls.

Definition SeriesKey : Type := string * Labels.

(** Modelled from the spec: the identity under which a sample is folded
    into its series (section 3). *)
Definition identity (s : MetricSample) : SeriesKey :=
  (sampleName s, sortLabels (sampleLabels s)).

(** Modelled from the spec: the registry of section 4.2.  [kinds] holds
    the registered names with their kind and label names, [series] the
    accumulators by identity, [maxCardinality] the configured maximum of
    label combinations per name, and [cardinalityRejected] the
    [cardinality_rejected_total] counter. *)
Record Registry := {
  kinds : gmap string (Kind * list string);
  series : gmap SeriesKey Value;
  maxCardinality : nat;
  cardinalityRejected : Z;
}.

(** Modelled from the spec: a registry with nothing recorded, for a
    configured maximum. *)
Definition empty (max : nat) : Registry :=
  {| kinds := ∅; series := ∅; maxCardinality := max; cardinalityRejected := 0 |}.

(** Modelled from the spec: [register(name, kind, label-names)], which
    "fails with [DuplicateSeriesKind] if [name] already exists with a
    different [kind]". *)
Definition register (name : string) (kind : Kind) (labelNames : list string)
    (r : Registry) : option RegistryError * Registry :=
  match kinds r !! name with
  | Some (k, _) =>
      if decide (k = kind) then (None, r) else (Some DuplicateSeriesKind, r)
  | None =>
      (None,
       {| kinds := <[name := (kind, labelNames)]> (kinds r);
          series := series r;
          maxCardinality := maxCardinality r;
          cardinalityRejected := cardinalityRejected r |})
  end.

(** Modelled from the spec: the cardinality of a name, "the number of
    distinct label-value combinations recorded under one metric name"
    (glossary). *)
Definition cardinality (r : Registry) (name : string) : nat :=
  size (filter (λ kv : SeriesKey * Value, kv.1.1 = name) (series r)).

(** Modelled from the spec: the fold of a value into an accumulator,
    "counter: add; gauge: set; histogram: bucket/update". *)
Definition accumulate (acc : Value) (v : Z) : Value :=
  match acc with
  | CounterValue total => CounterValue (total + v)
  | GaugeValue _ => GaugeValue v
  | HistogramValue count sum => HistogramValue (count + 1) (sum + v)
  end.

Definition zero (k : Kind) : Value :=
  match k with
  | Counter => CounterValue 0
  | Gauge => GaugeValue 0
  | Histogram => HistogramValue 0 0
  end.

(** Modelled from the spec: [record(name, labels, value)] of section 4.2.
    The series is created on first use, with the registered kind of the
    name or, for a name not registered, the kind of the sample, which
    registers the name.  A new label combination that would take the name
    over the configured maximum is rejected: nothing is created,
    [cardinality_rejected_total] goes up by one, and the caller gets no
    error (section 7: "never throws the caller into an error path"). *)
Definition record (s : MetricSample) (r : Registry) :
    option RegistryError * Registry :=
  let key := identity s in
  match series r !! key with
  | Some acc =>
      (None,
       {| kinds := kinds r;
          series := <[key := accumulate acc (sampleValue s)]> (series r);
          maxCardinality := maxCardinality r;
          cardinalityRejected := cardinalityRejected r |})
  | None =>
      if decide (maxCardinality r ≤ cardinality r (sampleName s))%nat then
        (None,
         {| kinds := kinds r;
            series := series r;
            maxCardinality := maxCardinality r;
            cardinalityRejected := cardinalityRejected r + 1 |})
      else
        let kind := default (sampleKind s, (sampleLabels s).*1)
                      (kinds r !! sampleName s) in
        (None,
         {| kinds := <[sampleName s := kind]> (kinds r);
            series := <[key := accumulate (zero kind.1) (sampleValue s)]> (series r);
            maxCardinality := maxCardinality r;
            cardinalityRejected := cardinalityRejected r |})
  end.

(** Modelled from the spec: [snapshot()], "an immutable, internally
    consistent copy of all series values"; the order of the copy is that
    of the map's traversal and means nothing. *)
Definition snapshot (r : Registry) : list (SeriesKey * Value) :=
  map_to_list (series r).

End registry.

(** ** The metrics exporter *)

Module exporter.

Import registry.

Definition keyCompare : SeriesKey → SeriesKey → comparison :=
  ordering.pairCompare String.compare labelsCompare.

(** Modelled from the spec: the order of the exposition (section 4.3),
    "series sorted by name, then by lexicographically sorted label
    key=value pairs". *)
Definition seriesLe (a b : SeriesKey * Value) : Prop :=
  ordering.leb keyCompare a.1 b.1 = true.

#[global] Instance seriesLe_dec a b : Decision (seriesLe a b).
Proof. unfold seriesLe. apply _. Defined.

Definition quote : string := String "034"%char EmptyString.
Definition newline : string := String "010"%char EmptyString.

Definition renderLabel (l : string * string) : string :=
  l.1 +:+ "=" +:+ quote +:+ l.2 +:+ quote.

Definition renderLabels (ls : Labels) : string :=
  match ls with
  | [] => EmptyString
  | _ => "{" +:+ String.concat "," (renderLabel <$> ls) +:+ "}"
  end.

Definition kindName (v : Value) : string :=
  match v with
  | CounterValue _ => "counter"
  | GaugeValue _ => "gauge"
  | HistogramValue _ _ => "histogram"
  end.

Definition renderSample (name : string) (ls : Labels) (v : string) : string :=
  name +:+ renderLabels ls +:+ " " +:+ v +:+ newline.

(** Modelled from the spec: the text of one series, its type preamble line
    and its samples (section 4.3). *)
Definition renderSeries (s : SeriesKey * Value) : string :=
  let '((name, ls), v) := s in
  "# TYPE " +:+ name +:+ " " +:+ kindName v +:+ newline +:+
  match v with
  | CounterValue x | GaugeValue x => renderSample name ls (pretty x)
  | HistogramValue count sum =>
      renderSample (name +:+ "_count") ls (pretty count) +:+
      renderSample (name +:+ "_sum") ls (pretty sum)
  end.

(** The series of a snapshot in the order of the exposition. *)
Definition ordered (snap : list (SeriesKey * Value)) : list (SeriesKey * Value) :=
  merge_sort seriesLe snap.

(** Modelled from the spec: the rendering function of the exporter
    (section 4.3), from a snapshot to the text of the exposition. *)
Definition render (snap : list (SeriesKey * Value)) : string :=
  String.concat EmptyString (renderSeries <$> ordered snap).

End exporter.

(** ** The certificate watcher *)

Module certwatcher.

(** Modelled from the spec: what parsing finds in a certificate file and in
    a key file, as far as validation looks at it (section 4.4: "matching
    key to certificate, not expired, well-formed"). *)
Record Certificate := { subjectKey : N; notAfter : Z }.
Record PrivateKey := { publicPart : N }.

(** Modelled from the spec: [CertificateBundle] (section 3). *)
Record CertificateBundle := {
  certificateBytes : string;
  keyBytes : string;
  loadedAt : Z;
  generation : N;
}.

#[global] Instance CertificateBundle_eq_dec : EqDecision CertificateBundle.
Proof. solve_decision. Defined.

(** Modelled from the spec: the state of the watcher, the active bundle
    (none before the first valid load) and the counters
    [certwatcher_read_certificate_total] and
    [certwatcher_read_certificate_errors_total]. *)
Record Watcher := {
  active : option CertificateBundle;
  readTotal : Z;
  readErrors : Z;
}.

Definition initial : Watcher :=
  {| active := None; readTotal := 0; readErrors := 0 |}.

(** Modelled from the spec: a detected change of the pair on disk
    (section 4.4), the contents of the two files and the time of the
    reading. *)
Record Change := { newCertificate : string; newKey : string; seenAt : Z }.

Section watcher.

(** The parsers of the two files; [None] is a file that is not well
    formed. *)
Variable parseCertificate : string → option Certificate.
Variable parsePrivateKey : string → option PrivateKey.

(** Modelled from the spec: validation of a pair (section 4.4), well
    formed, key matching the certificate, not expired. *)
Definition validate (cert key : string) (now : Z) : bool :=
  match parseCertificate cert, parsePrivateKey key with
  | Some c, Some k =>
      bool_decide (subjectKey c = publicPart k) && bool_decide (now ≤ notAfter c)
  | _, _ => false
  end.

(** Modelled from the spec: the "incremented generation counter" of a new
    bundle (section 4.4); the first bundle has generation 1. *)
Definition nextGeneration (w : Watcher) : N :=
  match active w with
  | Some b => (generation b + 1)%N
  | None => 1%N
  end.

(** Modelled from the spec: the reaction to a detected change
    (section 4.4).  A pair that fails validation counts as a read error and
    leaves the active bundle alone; a valid pair becomes the active bundle,
    with the next generation, in one replacement of the reference. *)
Definition onChange (c : Change) (w : Watcher) : Watcher :=
  if validate (newCertificate c) (newKey c) (seenAt c) then
    {| active := Some {| certificateBytes := newCertificate c;
                         keyBytes := newKey c;
                         loadedAt := seenAt c;
                         generation := nextGeneration w |};
       readTotal := readTotal w + 1;
       readErrors := readErrors w |}
  else
    {| active := active w;
       readTotal := readTotal w;
       readErrors := readErrors w + 1 |}.

(** Modelled from the spec: the bundle that a reader gets, the active
    one (section 3: "exactly one bundle is active at a time"). *)
Definition current (w : Watcher) : option CertificateBundle := active w.

(** The watcher after a sequence of changes, oldest first. *)
Definition replay (cs : list Change) (w : Watcher) : Watcher :=
  foldl (λ w c, onChange c w) w cs.

(** A bundle that passed validation when it was loaded. *)
Definition sound (b : CertificateBundle) : Prop :=
  validate (certificateBytes b) (keyBytes b) (loadedAt b) = true.

End watcher.

End certwatcher.

(** ** A resource to run the controller on

    The resource of the README's walk-through, [demo/foo] with message
    "Hallo Welt!", in a store that holds nothing else. *)

Module demo.

Import apiserver.

Definition key : types.NamespacedName :=
  {| types.Namespace := "demo"; types.Name := "foo" |}.

Definition request : ctrl.Request := {| ctrl.NamespacedName := key |}.

Definition foo (replied : bool) : v1.Simple :=
  {| v1.ObjectMeta :=
       {| metav1.Name := "foo"; metav1.Namespace := "demo";
          metav1.Generation := 1; metav1.ResourceVersion := 1 |};
     v1.Spec := {| v1.Message := "Hallo Welt!" |};
     v1.Status := {| v1.Replied := replied |} |}.

Definition world (replied : bool) (steps : list EnvStep) : World :=
  {| objects := {[ key := foo replied ]}; logs := []; samples := ∅;
     schedule := steps |}.

Definition emptyWorld (steps : list EnvStep) : World :=
  {| objects := ∅; logs := []; samples := ∅; schedule := steps |}.

Definition kvs : list (string * string) :=
  [("name", "foo"); ("message", "Hallo Welt!")].

End demo.

(** ** Certificate files to run the watcher on

    Two pairs, told apart by the text of the files; every other text is a
    file that does not parse. *)

Module democerts.

Import certwatcher.

Definition parseCertificate (s : string) : option Certificate :=
  if decide (s = "cert-a") then Some {| subjectKey := 7; notAfter := 1000 |}
  else if decide (s = "cert-b") then Some {| subjectKey := 9; notAfter := 2000 |}
  else None.

Definition parsePrivateKey (s : string) : option PrivateKey :=
  if decide (s = "key-a") then Some {| publicPart := 7 |}
  else if decide (s = "key-b") then Some {| publicPart := 9 |}
  else None.

(** The first pair, loaded at time 10. *)
Definition firstLoad : Change :=
  {| newCertificate := "cert-a"; newKey := "key-a"; seenAt := 10 |}.

(** A rotation caught halfway: the new certificate with the old key. *)
Definition halfWritten : Change :=
  {| newCertificate := "cert-b"; newKey := "key-a"; seenAt := 20 |}.

End democerts.


(** ** Marshalling, and the caller's retries

    What the claims above leave aside: [json.Marshal] of the resource and
    of [SimpleList] with the tags as they stand, and the caller that
    invokes [Reconcile] again and again for one request. *)

Module jsonv1.

Import v1.

(** [json.Marshal] of the [status] member, tag
    [`json:"status,omitempty,omitzero"`].  [omitempty] never drops a
    struct; [omitzero] drops the zero struct, [Replied] false, on the
    toolchains that know the option (Go 1.24 on) and is ignored by the
    older ones.  [omitzero] says which toolchain marshals. *)
Definition marshalStatus (omitzero : bool) (s : SimpleStatus) : option RawStatus :=
  if omitzero && negb (Replied s) then None else Some (encodeStatus s).

(** [json.Marshal] of a [Simple]: [spec] and its [message] are always
    written; the metadata goes over as it is. *)
Definition marshal (omitzero : bool) (o : Simple) : RawSimple :=
  {| rawMeta := ObjectMeta o;
     rawSpec := Some (encodeSpec (Spec o));
     rawStatus := marshalStatus omitzero (Status o) |}.




End jsonv1.

Module retries.

Import client apiserver.

Definition isLog (c : Call) : bool :=
  match c with LogInfoCall _ _ => true | _ => false end.

(** Every object of the store is held under its own namespace and name. *)
Definition wellKeyed (w : World) : Prop :=
  ∀ k o, objects w !! k = Some o → v1.keyOf o = k.

(** The caller invoking [Reconcile] [n] times for one request, as the
    work queue does when it requeues a request; the world after the last
    invocation. *)
Fixpoint reconcileTimes (n : nat) (req : ctrl.Request) (w : World) : World :=
  match n with
  | O => w
  | S n => reconcileTimes n req (final (reconcile req w))
  end.

End retries.

(** * Properties of the controller *)

Import client.

(** ** [Reconcile] against any client

    The three ways through [Reconcile], by what [Get] answers. *)

Section any_client.

Context {W : Type} (c : Client W).

Lemma run_Reconcile_get_error (req : ctrl.Request) (w w1 : W) (err : error) :
  doGet c (ctrl.NamespacedName req) w = (inl err, w1) →
  run c (controller.Reconcile req) w =
    {| result := (ctrl.emptyResult, IgnoreNotFound err);
       final := w1;
       calls := [GetCall (ctrl.NamespacedName req) (inl err)] |}.
Proof. intros Hget. unfold run. simpl. by rewrite Hget. Qed.

Lemma run_Reconcile_replied (req : ctrl.Request) (w w1 : W) (simple : v1.Simple) :
  doGet c (ctrl.NamespacedName req) w = (inr simple, w1) →
  v1.Replied (v1.Status simple) = true →
  let kvs := [("name", metav1.Name (v1.ObjectMeta simple));
              ("message", v1.Message (v1.Spec simple))] in
  run c (controller.Reconcile req) w =
    {| result := (ctrl.emptyResult, None);
       final := doLogInfo c "Hallo Welt!" kvs w1;
       calls := [GetCall (ctrl.NamespacedName req) (inr simple);
                 LogInfoCall "Hallo Welt!" kvs] |}.
Proof. intros Hget Hrep. unfold run. simpl. rewrite Hget. simpl. by rewrite Hrep. Qed.

Lemma run_Reconcile_pending (req : ctrl.Request) (w w1 w2 : W)
    (simple : v1.Simple) (upd : option error) :
  doGet c (ctrl.NamespacedName req) w = (inr simple, w1) →
  v1.Replied (v1.Status simple) = false →
  let kvs := [("name", metav1.Name (v1.ObjectMeta simple));
              ("message", v1.Message (v1.Spec simple))] in
  doStatusUpdate c (v1.setReplied true simple) (doLogInfo c "Hallo Welt!" kvs w1)
    = (upd, w2) →
  run c (controller.Reconcile req) w =
    {| result := (ctrl.emptyResult, upd);
       final := w2;
       calls := [GetCall (ctrl.NamespacedName req) (inr simple);
                 LogInfoCall "Hallo Welt!" kvs;
                 StatusUpdateCall (v1.setReplied true simple) upd] |}.
Proof.
  intros Hget Hrep kvs Hupd. unfold run. simpl. rewrite Hget. simpl.
  rewrite Hrep. simpl. fold kvs. rewrite Hupd. by destruct upd.
Qed.

End any_client.

(** ** [Reconcile] against the API server *)

Import apiserver.

(** No call of the client touches the samples of the metrics endpoint. *)
Lemma nextStep_samples (w : World) : samples (nextStep w).2 = samples w.
Proof. unfold nextStep. by destruct (schedule w). Qed.

Lemma get_samples (key : types.NamespacedName) (w : World) :
  samples (get key w).2 = samples w.
Proof.
  unfold get. pose proof (nextStep_samples w) as H.
  destruct (nextStep w) as [s w']. simpl in H.
  destruct (failure s); [done|]. by destruct (objects w' !! key).
Qed.

Lemma statusUpdate_samples (obj : v1.Simple) (w : World) :
  samples (statusUpdate obj w).2 = samples w.
Proof.
  unfold statusUpdate. pose proof (nextStep_samples w) as H.
  destruct (nextStep w) as [s w']. simpl in H.
  destruct (failure s); [done|].
  destruct (objects w' !! v1.keyOf obj); [|done]. by case_decide.
Qed.

Lemma runFrom_samples {R : Type} (p : Prog R) (w : World) (done : list Call) :
  samples (final (runFrom server p w done)) = samples w.
Proof.
  revert w done. induction p as [r|key k IH|obj k IH|msg kvs k IH]; intros w done; simpl.
  - done.
  - pose proof (get_samples key w) as H. destruct (get key w) as [res w'].
    rewrite IH. exact H.
  - pose proof (statusUpdate_samples obj w) as H.
    destruct (statusUpdate obj w) as [res w']. rewrite IH. exact H.
  - by rewrite IH.
Qed.

Lemma reconcile_samples (req : ctrl.Request) (w : World) :
  samples (final (reconcile req w)) = samples w.
Proof. apply runFrom_samples. Qed.

Lemma reconcile_sampleValue (req : ctrl.Request) (w : World) (name : string)
    (labels : list (string * string)) :
  sampleValue (final (reconcile req w)) name labels = sampleValue w name labels.
Proof. unfold sampleValue. by rewrite reconcile_samples. Qed.

(** A [Get] that fails with anything but not-found failed on the way: the
    store is as it was. *)
Lemma get_error_objects (key : types.NamespacedName) (w w1 : World) (err : error) :
  get key w = (inl err, w1) → err ≠ ErrNotFound → objects w1 = objects w.
Proof.
  unfold get, nextStep. intros Hget Hne.
  destruct (schedule w) as [|s rest].
  - simpl in Hget. destruct (objects w !! key); by simplify_eq.
  - destruct s; simpl in Hget;
      try (match type of Hget with
           | context [?m !! key] => destruct (m !! key)
           end; by simplify_eq).
    by injection Hget as _ <-.
Qed.

(** *** A record that has been replied to *)

(** C1, as the code has it: when the fetched record has [status.replied]
    true, one invocation of [Reconcile] returns success after a [Get] and a
    log line, its only calls; it makes no status write, the store stays as
    the fetch left it, and it records no metric: every sample is as
    before, the counter [reconcile_total{result="skipped"}] included. *)
Theorem Reconcile_replied_no_write (req : ctrl.Request) (w w1 : World)
    (simple : v1.Simple) :
  get (ctrl.NamespacedName req) w = (inr simple, w1) →
  v1.Replied (v1.Status simple) = true →
  let out := reconcile req w in
  result out = (ctrl.emptyResult, None)
  ∧ calls out
    = [GetCall (ctrl.NamespacedName req) (inr simple);
       LogInfoCall "Hallo Welt!"
         [("name", metav1.Name (v1.ObjectMeta simple));
          ("message", v1.Message (v1.Spec simple))]]
  ∧ writes (calls out) = 0%nat
  ∧ objects (final out) = objects w1
  ∧ (∀ name labels,
       sampleValue (final out) name labels = sampleValue w name labels).
Proof.
  intros Hget Hrep out.
  assert (Hrun := run_Reconcile_replied server req w w1 simple Hget Hrep).
  simpl in Hrun. unfold out, reconcile. rewrite Hrun. simpl.
  split_and!; [done..|]. intros name labels.
  rewrite <- (reconcile_sampleValue req w name labels).
  unfold reconcile. by rewrite Hrun.
Qed.

Lemma Reconcile_replied_no_write_witness :
  let out := reconcile demo.request (demo.world true []) in
  result out = (ctrl.emptyResult, None)
  ∧ calls out
    = [GetCall demo.key (inr (demo.foo true));
       LogInfoCall "Hallo Welt!" demo.kvs]
  ∧ writes (calls out) = 0%nat
  ∧ objects (final out) = objects (demo.world true [])
  ∧ (∀ name labels,
       sampleValue (final out) name labels
       = sampleValue (demo.world true []) name labels).
Proof.
  apply (Reconcile_replied_no_write demo.request (demo.world true [])
           (demo.world true []) (demo.foo true)); reflexivity.
Defined.

(** C1 as stated fails: [demo/foo] is stored with [replied] true, one
    invocation runs, and [reconcile_total{result="skipped"}] is not one
    more than before. *)
Lemma Reconcile_replied_skipped_counterexample :
  let w := demo.world true [] in
  let out := reconcile demo.request w in
  repliedAt demo.key w = Some true
  ∧ writes (calls out) = 0%nat
  ∧ sampleValue (final out) "reconcile_total" [("result", "skipped")]
    ≠ sampleValue w "reconcile_total" [("result", "skipped")] + 1.
Proof. vm_compute. repeat split; discriminate. Qed.

(** *** A record not yet replied to *)

(** C2, as the code has it: when the fetched record has [status.replied]
    false, one invocation makes exactly one status write, for the fetched
    object with [replied] true, and returns what the write returned; when
    the write succeeds the stored record has [replied] true and the
    invocation returns success.  [Get], the log line and the write are its
    only calls: it records no metric, and every sample is as before,
    [reconcile_total{result="updated"}] and the [reconcile_duration]
    histogram included. *)
Theorem Reconcile_pending_one_write (req : ctrl.Request) (w w1 : World)
    (simple : v1.Simple) :
  get (ctrl.NamespacedName req) w = (inr simple, w1) →
  v1.Replied (v1.Status simple) = false →
  let out := reconcile req w in
  (∃ upd, calls out
          = [GetCall (ctrl.NamespacedName req) (inr simple);
             LogInfoCall "Hallo Welt!"
               [("name", metav1.Name (v1.ObjectMeta simple));
                ("message", v1.Message (v1.Spec simple))];
             StatusUpdateCall (v1.setReplied true simple) upd]
          ∧ result out = (ctrl.emptyResult, upd))
  ∧ writes (calls out) = 1%nat
  ∧ (result out = (ctrl.emptyResult, None) →
     repliedAt (v1.keyOf simple) (final out) = Some true)
  ∧ (∀ name labels,
       sampleValue (final out) name labels = sampleValue w name labels).
Proof.
  intros Hget Hrep out.
  set (kvs := [("name", metav1.Name (v1.ObjectMeta simple));
               ("message", v1.Message (v1.Spec simple))]).
  destruct (statusUpdate (v1.setReplied true simple) (logInfo "Hallo Welt!" kvs w1))
    as [upd w2] eqn:Hupd.
  assert (Hrun := run_Reconcile_pending server req w w1 w2 simple upd Hget Hrep Hupd).
  simpl in Hrun. unfold out, reconcile. rewrite Hrun. simpl.
  split_and!.
  - by exists upd.
  - done.
  - intros [= ->]. revert Hupd. unfold statusUpdate.
    destruct (nextStep _) as [s w']. destruct (failure s); [done|].
    change (v1.keyOf (v1.setReplied true simple)) with (v1.keyOf simple).
    destruct (objects w' !! v1.keyOf simple) as [cur|]; [|done].
    case_decide; [|done]. intros [= <-].
    unfold repliedAt, withObjects. simpl. by rewrite lookup_insert_eq.
  - intros name labels. rewrite <- (reconcile_sampleValue req w name labels).
    unfold reconcile. by rewrite Hrun.
Qed.

Lemma Reconcile_pending_one_write_witness :
  let out := reconcile demo.request (demo.world false []) in
  (∃ upd, calls out
          = [GetCall demo.key (inr (demo.foo false));
             LogInfoCall "Hallo Welt!" demo.kvs;
             StatusUpdateCall (v1.setReplied true (demo.foo false)) upd]
          ∧ result out = (ctrl.emptyResult, upd))
  ∧ writes (calls out) = 1%nat
  ∧ (result out = (ctrl.emptyResult, None) →
     repliedAt (v1.keyOf (demo.foo false)) (final out) = Some true)
  ∧ (∀ name labels,
       sampleValue (final out) name labels
       = sampleValue (demo.world false []) name labels).
Proof.
  apply (Reconcile_pending_one_write demo.request (demo.world false [])
           (demo.world false []) (demo.foo false)); reflexivity.
Defined.

(** C2 as stated fails: [demo/foo] is stored with [replied] false and
    nothing interferes; the invocation writes the status and succeeds, but
    [reconcile_total{result="updated"}] is not one more than before and
    the [reconcile_duration] histogram has no new observation. *)
Lemma Reconcile_pending_updated_counterexample :
  let w := demo.world false [] in
  let out := reconcile demo.request w in
  result out = (ctrl.emptyResult, None)
  ∧ repliedAt demo.key (final out) = Some true
  ∧ sampleValue (final out) "reconcile_total" [("result", "updated")]
    ≠ sampleValue w "reconcile_total" [("result", "updated")] + 1
  ∧ sampleValue (final out) "reconcile_duration_count" []
    ≠ sampleValue w "reconcile_duration_count" [] + 1.
Proof. vm_compute. repeat split; discriminate. Qed.

(** A write that fails leaves [replied] false in the store. *)
Example Reconcile_pending_write_fails :
  let w := demo.world false [Quiet; Fail (ErrOther "etcdserver: request timed out")] in
  let out := reconcile demo.request w in
  result out = (ctrl.emptyResult, Some (ErrOther "etcdserver: request timed out"))
  ∧ repliedAt demo.key (final out) = Some false.
Proof. by vm_compute. Qed.

(** *** A status write that fails *)

(** C4, as the code has it: when the status write fails, with a version
    conflict or with any other error, [Reconcile] returns that error to
    its caller at once.  The invocation has made one fetch and one write
    attempt; it does not fetch again and does not write again.  Trying
    again is left to the caller, to which the error is returned. *)
Theorem Reconcile_write_error_returned (req : ctrl.Request) (w w1 w2 : World)
    (simple : v1.Simple) (err : error) :
  get (ctrl.NamespacedName req) w = (inr simple, w1) →
  v1.Replied (v1.Status simple) = false →
  statusUpdate (v1.setReplied true simple)
    (logInfo "Hallo Welt!"
       [("name", metav1.Name (v1.ObjectMeta simple));
        ("message", v1.Message (v1.Spec simple))] w1) = (Some err, w2) →
  let out := reconcile req w in
  result out = (ctrl.emptyResult, Some err)
  ∧ fetches (calls out) = 1%nat
  ∧ writes (calls out) = 1%nat
  ∧ last (calls out) = Some (StatusUpdateCall (v1.setReplied true simple) (Some err))
  ∧ final out = w2.
Proof.
  intros Hget Hrep Hupd out.
  assert (Hrun := run_Reconcile_pending server req w w1 w2 simple (Some err)
                    Hget Hrep Hupd).
  simpl in Hrun. unfold out, reconcile. by rewrite Hrun.
Qed.

Lemma Reconcile_write_error_returned_witness :
  let w := demo.world false [Quiet; EditSpec demo.key "Hej"] in
  let out := reconcile demo.request w in
  result out = (ctrl.emptyResult, Some ErrConflict)
  ∧ fetches (calls out) = 1%nat
  ∧ writes (calls out) = 1%nat
  ∧ last (calls out)
    = Some (StatusUpdateCall (v1.setReplied true (demo.foo false)) (Some ErrConflict))
  ∧ final out
    = {| objects := {[ demo.key := editSpec "Hej" (demo.foo false) ]};
         logs := [("Hallo Welt!", demo.kvs)]; samples := ∅; schedule := [] |}.
Proof.
  apply (Reconcile_write_error_returned demo.request
           (demo.world false [Quiet; EditSpec demo.key "Hej"])
           (demo.world false [EditSpec demo.key "Hej"])
           _ (demo.foo false) ErrConflict); reflexivity.
Defined.

(** C4 as stated fails: another actor edits the spec of [demo/foo]
    between the fetch and the status write, the write meets a version
    conflict, and the invocation ends there with the conflict as its
    error, after one fetch and one write: there is no second fetch and no
    second write. *)
Lemma Reconcile_conflict_retry_counterexample :
  let w := demo.world false [Quiet; EditSpec demo.key "Hej"] in
  let out := reconcile demo.request w in
  StatusUpdateCall (v1.setReplied true (demo.foo false)) (Some ErrConflict)
    ∈ calls out
  ∧ result out = (ctrl.emptyResult, Some ErrConflict)
  ∧ ¬ (1 < fetches (calls out))%nat
  ∧ ¬ (1 < writes (calls out))%nat
  ∧ repliedAt demo.key (final out) = Some false.
Proof.
  vm_compute. split_and!; try done; try lia.
  do 2 apply list_elem_of_further. apply list_elem_of_here.
Qed.

(** *** A record that is not there *)

(** C5, as the code has it: when the fetch answers not-found, one
    invocation returns success; [Get] is its only call, so it writes
    nothing, and no sample of the metrics endpoint changes, the counter
    [reconcile_total{result="not_found"}] included. *)
Theorem Reconcile_not_found_ignored (req : ctrl.Request) (w w1 : World) :
  get (ctrl.NamespacedName req) w = (inl ErrNotFound, w1) →
  let out := reconcile req w in
  result out = (ctrl.emptyResult, None)
  ∧ calls out = [GetCall (ctrl.NamespacedName req) (inl ErrNotFound)]
  ∧ writes (calls out) = 0%nat
  ∧ objects (final out) = objects w1
  ∧ (∀ name labels,
       sampleValue (final out) name labels = sampleValue w name labels).
Proof.
  intros Hget out.
  assert (Hrun := run_Reconcile_get_error server req w w1 ErrNotFound Hget).
  unfold out, reconcile. rewrite Hrun. simpl.
  split_and!; [done..|]. intros name labels.
  rewrite <- (reconcile_sampleValue req w name labels).
  unfold reconcile. by rewrite Hrun.
Qed.

Lemma Reconcile_not_found_ignored_witness :
  let w := demo.emptyWorld [] in
  let out := reconcile demo.request w in
  result out = (ctrl.emptyResult, None)
  ∧ calls out = [GetCall demo.key (inl ErrNotFound)]
  ∧ writes (calls out) = 0%nat
  ∧ objects (final out) = objects w
  ∧ (∀ name labels,
       sampleValue (final out) name labels = sampleValue w name labels).
Proof.
  apply (Reconcile_not_found_ignored demo.request (demo.emptyWorld [])
           (demo.emptyWorld [])); reflexivity.
Defined.

(** The record absent from the store, with nothing failing on the way, is
    the case of a fetch that answers not-found. *)
Lemma get_absent (key : types.NamespacedName) (w : World) :
  objects w !! key = None →
  failure (nextStep w).1 = None →
  (get key w).1 = inl ErrNotFound.
Proof.
  unfold get, nextStep. intros Habs Hfail.
  destruct (schedule w) as [|s rest]; simpl in *.
  - by rewrite Habs.
  - rewrite Hfail.
    assert (interfere s (objects w) !! key = None) as ->; [|done].
    destruct s; simpl; [done| |by apply lookup_delete_None; right|done].
    destruct (objects w !! key0) eqn:E; [|done].
    case_match; [|done]. rewrite lookup_insert_ne; [done|]. by intros ->; simplify_eq.
Qed.

(** C5 as stated fails: the store is empty, one invocation runs for
    [demo/foo] and succeeds without a write, and
    [reconcile_total{result="not_found"}] is not one more than before. *)
Lemma Reconcile_not_found_counter_counterexample :
  let w := demo.emptyWorld [] in
  let out := reconcile demo.request w in
  objects w !! demo.key = None
  ∧ result out = (ctrl.emptyResult, None)
  ∧ sampleValue (final out) "reconcile_total" [("result", "not_found")]
    ≠ sampleValue w "reconcile_total" [("result", "not_found")] + 1.
Proof. vm_compute. split_and!; done. Qed.

(** *** A fetch that fails *)

(** C6: when the fetch fails with an error other than not-found, the
    invocation returns that error.  [Get] is its only call: no status write
    is made, and the store is the one it started from. *)
Theorem Reconcile_fetch_error_returned (req : ctrl.Request) (w w1 : World)
    (err : error) :
  get (ctrl.NamespacedName req) w = (inl err, w1) →
  err ≠ ErrNotFound →
  let out := reconcile req w in
  result out = (ctrl.emptyResult, Some err)
  ∧ calls out = [GetCall (ctrl.NamespacedName req) (inl err)]
  ∧ writes (calls out) = 0%nat
  ∧ objects (final out) = objects w.
Proof.
  intros Hget Hne out.
  assert (Hrun := run_Reconcile_get_error server req w w1 err Hget).
  unfold out, reconcile. rewrite Hrun. simpl.
  split_and!; [|done..|by eapply get_error_objects].
  unfold IgnoreNotFound. by destruct err.
Qed.

Lemma Reconcile_fetch_error_returned_witness :
  let w := demo.world false [Fail (ErrOther "connection refused")] in
  let out := reconcile demo.request w in
  result out = (ctrl.emptyResult, Some (ErrOther "connection refused"))
  ∧ calls out = [GetCall demo.key (inl (ErrOther "connection refused"))]
  ∧ writes (calls out) = 0%nat
  ∧ objects (final out) = objects w.
Proof.
  apply (Reconcile_fetch_error_returned demo.request
           (demo.world false [Fail (ErrOther "connection refused")])
           (demo.world false []) (ErrOther "connection refused"));
    [reflexivity | discriminate].
Defined.

(** *** Sequences of invocations *)

Lemma advances_refl (a : option bool) : advances a a.
Proof. by right; left. Qed.

Lemma advances_trans (a b c : option bool) :
  advances a b → advances b c → advances a c.
Proof.
  unfold advances. intros [->|[->|[-> ->]]] Hbc; [|done|].
  - destruct Hbc as [->|[->|[[=] _]]]; by left.
  - destruct Hbc as [->|[->|[[=] _]]]; [by left|by right; right].
Qed.

Lemma interfere_advances (s : EnvStep)
    (objs : gmap types.NamespacedName v1.Simple) (key : types.NamespacedName) :
  advances ((λ o, v1.Replied (v1.Status o)) <$> objs !! key)
           ((λ o, v1.Replied (v1.Status o)) <$> interfere s objs !! key).
Proof.
  destruct s as [|k msg|k|e]; simpl; try apply advances_refl.
  - destruct (objs !! k) as [o|] eqn:Hk; [|apply advances_refl].
    case_match; [|apply advances_refl].
    destruct (decide (k = key)) as [->|Hne].
    + rewrite lookup_insert_eq, Hk. apply advances_refl.
    + rewrite lookup_insert_ne by done. apply advances_refl.
  - destruct (decide (k = key)) as [->|Hne].
    + rewrite lookup_delete_eq. by left.
    + rewrite lookup_delete_ne by done. apply advances_refl.
Qed.

Lemma nextStep_advances (w : World) (key : types.NamespacedName) :
  advances (repliedAt key w) (repliedAt key (nextStep w).2).
Proof.
  unfold nextStep, repliedAt. destruct (schedule w) as [|s rest]; simpl.
  - apply advances_refl.
  - apply interfere_advances.
Qed.

Lemma get_advances (k key : types.NamespacedName) (w : World) :
  advances (repliedAt key w) (repliedAt key (get k w).2).
Proof.
  unfold get. pose proof (nextStep_advances w key) as H.
  destruct (nextStep w) as [s w']. simpl in H.
  destruct (failure s); [done|]. by destruct (objects w' !! k).
Qed.

Lemma statusUpdate_advances (obj : v1.Simple) (key : types.NamespacedName)
    (w : World) :
  v1.Replied (v1.Status obj) = true →
  advances (repliedAt key w) (repliedAt key (statusUpdate obj w).2).
Proof.
  intros Hrep. unfold statusUpdate. pose proof (nextStep_advances w key) as H.
  destruct (nextStep w) as [s w']. simpl in H.
  destruct (failure s); [done|].
  destruct (objects w' !! v1.keyOf obj) as [cur|] eqn:Hcur; [|done].
  case_decide; [|done]. simpl.
  eapply advances_trans; [exact H|].
  unfold repliedAt, withObjects. simpl.
  destruct (decide (v1.keyOf obj = key)) as [<-|Hne].
  - rewrite lookup_insert_eq, Hcur. simpl. rewrite Hrep.
    destruct (v1.Replied (v1.Status cur)).
    + apply advances_refl.
    + by right; right.
  - rewrite lookup_insert_ne by done. apply advances_refl.
Qed.

(** Over one invocation, [replied] of any key goes from [false] to [true]
    or stays, unless the object goes away. *)
Lemma reconcile_advances (req : ctrl.Request) (key : types.NamespacedName)
    (w : World) :
  advances (repliedAt key w) (repliedAt key (final (reconcile req w))).
Proof.
  pose proof (get_advances (ctrl.NamespacedName req) key w) as Hg.
  destruct (get (ctrl.NamespacedName req) w) as [[err|simple] w1] eqn:Hget;
    simpl in Hg.
  - unfold reconcile.
    by rewrite (run_Reconcile_get_error server req w w1 err Hget).
  - destruct (v1.Replied (v1.Status simple)) eqn:Hrep.
    + unfold reconcile.
      by rewrite (run_Reconcile_replied server req w w1 simple Hget Hrep).
    + set (kvs := [("name", metav1.Name (v1.ObjectMeta simple));
                   ("message", v1.Message (v1.Spec simple))]).
      pose proof (statusUpdate_advances (v1.setReplied true simple) key
                    (logInfo "Hallo Welt!" kvs w1) eq_refl) as Hu.
      destruct (statusUpdate (v1.setReplied true simple)
                  (logInfo "Hallo Welt!" kvs w1)) as [upd w2] eqn:Hupd.
      unfold reconcile.
      rewrite (run_Reconcile_pending server req w w1 w2 simple upd Hget Hrep Hupd).
      simpl in *. eapply advances_trans; [exact Hg|exact Hu].
Qed.

Lemma flips_settled (key : types.NamespacedName) (reqs : list ctrl.Request)
    (w : World) :
  repliedAt key w ≠ Some false → flips key w (reconcileAll reqs w) = 0%nat.
Proof.
  revert w. induction reqs as [|req reqs IH]; intros w Hw; simpl; [done|].
  pose proof (reconcile_advances req key w) as Hadv.
  rewrite IH.
  - unfold flipped. rewrite bool_decide_eq_false_2; [done|]. by intros [? _].
  - destruct Hadv as [->|[->|[? _]]]; done.
Qed.

Lemma flips_at_most_once (key : types.NamespacedName) (reqs : list ctrl.Request)
    (w : World) :
  (flips key w (reconcileAll reqs w) ≤ 1)%nat.
Proof.
  revert w. induction reqs as [|req reqs IH]; intros w; simpl; [lia|].
  destruct (flipped key w (final (reconcile req w))) eqn:Hf.
  - apply bool_decide_eq_true in Hf as [_ Hf].
    rewrite flips_settled; [lia|]. by rewrite Hf.
  - specialize (IH (final (reconcile req w))). lia.
Qed.

Lemma flipsAt_le_flips (key : types.NamespacedName) (g : Z) (w : World)
    (ws : list World) :
  (flipsAt key g w ws ≤ flips key w ws)%nat.
Proof.
  revert w. induction ws as [|w' ws IH]; intros w; simpl; [lia|].
  specialize (IH w'). destruct (flipped key w w'); simpl; [|lia].
  case_bool_decide; lia.
Qed.

(** C3: along every sequence of invocations, from any store and under any
    schedule of spec edits, deletions and failures, [status.replied] of a
    record goes from false to true at most once for each spec generation
    (and at most once at all); and an invocation whose fetch finds
    [replied] true makes no write: the store is as the fetch left it. *)
Theorem replied_set_at_most_once (key : types.NamespacedName)
    (reqs : list ctrl.Request) (w : World) :
  (∀ g, (flipsAt key g w (reconcileAll reqs w) ≤ 1)%nat)
  ∧ (flips key w (reconcileAll reqs w) ≤ 1)%nat
  ∧ (∀ req w0 w1 simple,
       get (ctrl.NamespacedName req) w0 = (inr simple, w1) →
       v1.Replied (v1.Status simple) = true →
       writes (calls (reconcile req w0)) = 0%nat
       ∧ objects (final (reconcile req w0)) = objects w1).
Proof.
  split_and!.
  - intros g. pose proof (flipsAt_le_flips key g w (reconcileAll reqs w)).
    pose proof (flips_at_most_once key reqs w). lia.
  - apply flips_at_most_once.
  - intros req w0 w1 simple Hget Hrep.
    assert (Hrun := run_Reconcile_replied server req w0 w1 simple Hget Hrep).
    simpl in Hrun. unfold reconcile. by rewrite Hrun.
Qed.

(** The walk-through of the README, twice over: the first invocation sets
    [replied], the second leaves the record alone. *)
Example reconcile_twice :
  let w0 := demo.world false [] in
  let w1 := final (reconcile demo.request w0) in
  let w2 := final (reconcile demo.request w1) in
  reconcileAll [demo.request; demo.request] w0 = [w1; w2]
  ∧ repliedAt demo.key w1 = Some true
  ∧ repliedAt demo.key w2 = Some true
  ∧ flips demo.key w0 [w1; w2] = 1%nat
  ∧ flipsAt demo.key 1 w0 [w1; w2] = 1%nat
  ∧ writes (calls (reconcile demo.request w0)) = 1%nat
  ∧ writes (calls (reconcile demo.request w1)) = 0%nat.
Proof. split_and!; vm_compute; reflexivity. Qed.

(** * Properties of the orders *)

Section comparators.

Import ordering.

#[global] Instance ascii_comparator : Comparator Ascii.compare.
Proof.
  split; unfold Ascii.compare.
  - intros x. apply N.compare_refl.
  - intros x y H. apply N.compare_eq in H.
    rewrite <- (ascii_N_embedding x), <- (ascii_N_embedding y). by rewrite H.
  - intros x y. apply N.compare_antisym.
  - intros x y z. rewrite !N.compare_lt_iff. lia.
Qed.

#[global] Instance string_comparator : Comparator String.compare.
Proof.
  split.
  - intros x. induction x as [|a x IH]; simpl; [done|].
    by rewrite (cmp_refl (cmp := Ascii.compare)).
  - apply String.compare_eq_iff.
  - intros x y. apply String.compare_antisym.
  - intros x. induction x as [|a x IH]; intros [|b y] [|c z]; simpl; try done.
    destruct (Ascii.compare a b) eqn:Hab; try done.
    + apply cmp_eq in Hab as ->.
      destruct (Ascii.compare b c); try done. apply IH.
    + destruct (Ascii.compare b c) eqn:Hbc; try done.
      * apply cmp_eq in Hbc as <-. by rewrite Hab.
      * by rewrite (cmp_lt_trans a b c Hab Hbc).
Qed.

#[global] Instance pair_comparator {A B : Type} (ca : A → A → comparison)
    (cb : B → B → comparison) `{!Comparator ca, !Comparator cb} :
  Comparator (pairCompare ca cb).
Proof.
  split; unfold pairCompare.
  - intros [a b]. simpl. by rewrite !cmp_refl.
  - intros [a b] [a' b']. simpl. destruct (ca a a') eqn:Ha; try done.
    intros Hb. apply cmp_eq in Ha as ->. by apply cmp_eq in Hb as ->.
  - intros [a b] [a' b']. simpl. rewrite (cmp_opp a a').
    destruct (ca a a'); simpl; try done. apply cmp_opp.
  - intros [a b] [a' b'] [a'' b'']. simpl.
    destruct (ca a a') eqn:H1; try done.
    + apply cmp_eq in H1 as ->. destruct (ca a' a''); try done. apply cmp_lt_trans.
    + destruct (ca a' a'') eqn:H2; try done.
      * apply cmp_eq in H2 as <-. by rewrite H1.
      * by rewrite (cmp_lt_trans a a' a'' H1 H2).
Qed.

#[global] Instance list_comparator {A : Type} (ca : A → A → comparison)
    `{!Comparator ca} : Comparator (listCompare ca).
Proof.
  split.
  - intros l. induction l as [|a l IH]; simpl; [done|]. by rewrite cmp_refl.
  - intros l. induction l as [|a l IH]; intros [|b l']; simpl; try done.
    destruct (ca a b) eqn:Hab; try done.
    intros H. apply cmp_eq in Hab as ->. by rewrite (IH l' H).
  - intros l. induction l as [|a l IH]; intros [|b l']; simpl; try done.
    rewrite (cmp_opp a b). by destruct (ca a b); simpl.
  - intros l. induction l as [|a l IH]; intros [|b l'] [|c l'']; simpl; try done.
    destruct (ca a b) eqn:H1; try done.
    + apply cmp_eq in H1 as ->. destruct (ca b c); try done. apply IH.
    + destruct (ca b c) eqn:H2; try done.
      * apply cmp_eq in H2 as <-. by rewrite H1.
      * by rewrite (cmp_lt_trans a b c H1 H2).
Qed.

Context {A : Type} (cmp : A → A → comparison) `{!Comparator cmp}.

Lemma leb_total (x y : A) : leb cmp x y = true ∨ leb cmp y x = true.
Proof. unfold leb. rewrite (cmp_opp x y). destruct (cmp x y); simpl; auto. Qed.

Lemma leb_trans (x y z : A) :
  leb cmp x y = true → leb cmp y z = true → leb cmp x z = true.
Proof.
  unfold leb. destruct (cmp x y) eqn:H1; try done; intros _.
  - by apply cmp_eq in H1 as ->.
  - destruct (cmp y z) eqn:H2; try done; intros _.
    + apply cmp_eq in H2 as <-. by rewrite H1.
    + by rewrite (cmp_lt_trans x y z H1 H2).
Qed.

Lemma leb_antisym (x y : A) :
  leb cmp x y = true → leb cmp y x = true → x = y.
Proof.
  unfold leb. rewrite (cmp_opp x y). destruct (cmp x y) eqn:H1; simpl; try done.
  intros _ _. by apply cmp_eq.
Qed.

End comparators.

(** * Properties of the resource schema *)

(** What [json.Marshal] writes, [json.Unmarshal] reads back. *)
Lemma decode_encode (o : v1.Simple) : v1.decode (v1.encode o) = o.
Proof. by destruct o as [m [msg] [[]]]. Qed.

Lemma validate_encode (o : v1.Simple) :
  v1.validate (v1.encode o) = bool_decide (1 ≤ String.length (v1.Message (v1.Spec o)))%nat.
Proof. done. Qed.

(** C7: a resource that the schema admits has a [spec.message], and it is
    at least one character long; the schema does not look at the status,
    so the status and [replied] may be absent, and [replied] then reads
    false; and a write through the status subresource stores the status
    it is given and leaves the spec and the identity as stored. *)
Theorem Simple_schema (r : v1.RawSimple) :
  v1.validate r = true →
  (∃ m, r.(v1.rawSpec) ≫= v1.rawMessage = Some m
        ∧ v1.Message (v1.Spec (v1.decode r)) = m
        ∧ (1 ≤ String.length m)%nat)
  ∧ v1.validate {| v1.rawMeta := v1.rawMeta r; v1.rawSpec := v1.rawSpec r;
                   v1.rawStatus := None |} = true
  ∧ (r.(v1.rawStatus) ≫= v1.rawReplied = None →
     v1.Replied (v1.Status (v1.decode r)) = false)
  ∧ (∀ st cur,
       v1.Status (apiserver.writeStatus st cur) = st
       ∧ v1.Spec (apiserver.writeStatus st cur) = v1.Spec cur
       ∧ v1.keyOf (apiserver.writeStatus st cur) = v1.keyOf cur).
Proof.
  unfold v1.validate, v1.validateSpec. intros Hv.
  destruct r as [meta [[[m|]]|] st]; simpl in *; try done.
  apply bool_decide_eq_true in Hv.
  split; [|split; [|split]].
  - by exists m.
  - by apply bool_decide_eq_true.
  - unfold v1.decode, v1.decodeStatus. simpl. by intros ->.
  - done.
Qed.

Lemma Simple_schema_witness :
  let r := {| v1.rawMeta := v1.ObjectMeta (demo.foo false);
              v1.rawSpec := Some {| v1.rawMessage := Some "Hallo Welt!" |};
              v1.rawStatus := None |} in
  (∃ m, r.(v1.rawSpec) ≫= v1.rawMessage = Some m
        ∧ v1.Message (v1.Spec (v1.decode r)) = m
        ∧ (1 ≤ String.length m)%nat)
  ∧ v1.validate {| v1.rawMeta := v1.rawMeta r; v1.rawSpec := v1.rawSpec r;
                   v1.rawStatus := None |} = true
  ∧ (r.(v1.rawStatus) ≫= v1.rawReplied = None →
     v1.Replied (v1.Status (v1.decode r)) = false)
  ∧ (∀ st cur,
       v1.Status (apiserver.writeStatus st cur) = st
       ∧ v1.Spec (apiserver.writeStatus st cur) = v1.Spec cur
       ∧ v1.keyOf (apiserver.writeStatus st cur) = v1.keyOf cur).
Proof.
  apply (Simple_schema
           {| v1.rawMeta := v1.ObjectMeta (demo.foo false);
              v1.rawSpec := Some {| v1.rawMessage := Some "Hallo Welt!" |};
              v1.rawStatus := None |}).
  reflexivity.
Defined.

(** The schema turns away the empty message and the missing one. *)
Example Simple_schema_rejects :
  v1.validate {| v1.rawMeta := v1.ObjectMeta (demo.foo false);
                 v1.rawSpec := Some {| v1.rawMessage := Some EmptyString |};
                 v1.rawStatus := None |} = false
  ∧ v1.validate {| v1.rawMeta := v1.ObjectMeta (demo.foo false);
                   v1.rawSpec := Some {| v1.rawMessage := None |};
                   v1.rawStatus := None |} = false
  ∧ v1.validate {| v1.rawMeta := v1.ObjectMeta (demo.foo false);
                   v1.rawSpec := None;
                   v1.rawStatus := Some {| v1.rawReplied := Some true |} |} = false.
Proof. done. Qed.

(** * Properties of the exporter *)

Import registry exporter.

#[global] Instance keyCompare_comparator : ordering.Comparator keyCompare.
Proof. unfold keyCompare, labelsCompare, labelCompare. apply _. Qed.

#[global] Instance labelCompare_comparator : ordering.Comparator labelCompare.
Proof. unfold labelCompare. apply _. Qed.

#[global] Instance seriesLe_total : Total seriesLe.
Proof. intros a b. apply (leb_total keyCompare). Qed.

#[global] Instance seriesLe_trans : Transitive seriesLe.
Proof. intros a b c. apply (leb_trans keyCompare). Qed.

#[global] Instance labelLe_total : Total labelLe.
Proof. intros a b. apply (leb_total labelCompare). Qed.

(** The order of the exposition: the name first, the labels next. *)
Lemma seriesLe_spec (a b : SeriesKey * Value) :
  seriesLe a b ↔
    String.compare a.1.1 b.1.1 = Lt
    ∨ (a.1.1 = b.1.1 ∧ ordering.leb labelsCompare a.1.2 b.1.2 = true).
Proof.
  unfold seriesLe, ordering.leb, keyCompare, ordering.pairCompare.
  destruct (String.compare a.1.1 b.1.1) eqn:Hn.
  - apply ordering.cmp_eq in Hn. split; [by right|intros [?|[_ ?]]; done].
  - split; [by left|done].
  - split; [done|]. intros [?|[Heq _]]; [done|].
    rewrite Heq, ordering.cmp_refl in Hn. done.
Qed.

(** The labels of an identity are in order. *)
Lemma identity_sorted (s : MetricSample) : Sorted labelLe (identity s).2.
Proof. apply (Sorted_merge_sort labelLe). Qed.

Lemma NoDup_fst_eq {K V : Type} (l : list (K * V)) (x y : K * V) :
  NoDup l.*1 → x ∈ l → y ∈ l → x.1 = y.1 → x = y.
Proof.
  induction l as [|z l IH]; simpl; intros Hnd Hx Hy Heq.
  - by apply elem_of_nil in Hx.
  - apply NoDup_cons in Hnd as [Hz Hnd].
    apply elem_of_cons in Hx as [->|Hx]; apply elem_of_cons in Hy as [->|Hy].
    + done.
    + exfalso. apply Hz. rewrite Heq. by apply list_elem_of_fmap_2.
    + exfalso. apply Hz. rewrite <- Heq. by apply list_elem_of_fmap_2.
    + by apply IH.
Qed.

(** Two lists with the same series, one per identity, come out of the
    sort as one list. *)
Lemma ordered_unique (s1 s2 : list (SeriesKey * Value)) :
  NoDup s1.*1 → s1 ≡ₚ s2 → ordered s1 = ordered s2.
Proof.
  intros Hnd Hperm. unfold ordered.
  apply (Sorted_unique_strong seriesLe).
  - intros x1 x2 Hx1 Hx2 H12 H21.
    rewrite merge_sort_Permutation in Hx1. 
    rewrite merge_sort_Permutation, <- Hperm in Hx2.
    apply (NoDup_fst_eq s1); [done..|].
    by apply (leb_antisym keyCompare).
  - apply Sorted_merge_sort, _.
  - apply Sorted_merge_sort, _.
  - by rewrite !merge_sort_Permutation.
Qed.



(** The text of three series, in the order of the exposition. *)
Example render_three :
  render [(("reconcile_total", [("result", "updated")]), CounterValue 1);
          (("reconcile_total", [("result", "skipped")]), CounterValue 3);
          (("active_workers", [("controller", "simple")]), GaugeValue 0)]
  = "# TYPE active_workers gauge" +:+ newline
    +:+ "active_workers{controller=" +:+ quote +:+ "simple" +:+ quote +:+ "} 0"
    +:+ newline
    +:+ "# TYPE reconcile_total counter" +:+ newline
    +:+ "reconcile_total{result=" +:+ quote +:+ "skipped" +:+ quote +:+ "} 3"
    +:+ newline
    +:+ "# TYPE reconcile_total counter" +:+ newline
    +:+ "reconcile_total{result=" +:+ quote +:+ "updated" +:+ quote +:+ "} 1"
    +:+ newline.
Proof. by vm_compute. Qed.

(** A registry renders as any reordering of its snapshot does. *)
Lemma render_snapshot (r : Registry) (l : list (SeriesKey * Value)) :
  l ≡ₚ snapshot r → render l = render (snapshot r).
Proof.
  intros Hperm. unfold render. f_equal. f_equal. symmetry.
  apply ordered_unique; [apply NoDup_fst_map_to_list|done].
Qed.

(** * Properties of the registry *)

(** C9: when a name already has as many label combinations as the
    configured maximum, a [record] with a new combination for that name
    creates no series: the series and the registered names are as before,
    [cardinality_rejected_total] is one more, and the call returns no
    error. *)
Theorem record_rejects_beyond_maximum (s : MetricSample) (r : Registry) :
  series r !! identity s = None →
  (maxCardinality r ≤ cardinality r (sampleName s))%nat →
  (record s r).1 = None
  ∧ series (record s r).2 = series r
  ∧ kinds (record s r).2 = kinds r
  ∧ cardinality (record s r).2 (sampleName s) = cardinality r (sampleName s)
  ∧ cardinalityRejected (record s r).2 = cardinalityRejected r + 1.
Proof.
  intros Hnew Hfull. unfold record. rewrite Hnew.
  by rewrite decide_True.
Qed.

Lemma record_rejects_beyond_maximum_witness :
  let sample result :=
    {| sampleName := "reconcile_total"; sampleLabels := [("result", result)];
       sampleValue := 1; sampleKind := Counter |} in
  let r := (record (sample "skipped") (record (sample "updated") (empty 2)).2).2 in
  let s := sample "not_found" in
  (record s r).1 = None
  ∧ series (record s r).2 = series r
  ∧ kinds (record s r).2 = kinds r
  ∧ cardinality (record s r).2 (sampleName s) = cardinality r (sampleName s)
  ∧ cardinalityRejected (record s r).2 = cardinalityRejected r + 1.
Proof.
  apply record_rejects_beyond_maximum.
  - reflexivity.
  - vm_compute. lia.
Defined.

(** [record] never returns an error. *)
Lemma record_no_error (s : MetricSample) (r : Registry) : (record s r).1 = None.
Proof.
  unfold record. destruct (series r !! identity s); [done|]. by case_decide.
Qed.

Lemma record_maxCardinality (s : MetricSample) (r : Registry) :
  maxCardinality (record s r).2 = maxCardinality r.
Proof.
  unfold record. destruct (series r !! identity s); [done|]. by case_decide.
Qed.

Lemma cardinality_insert_old (r : gmap SeriesKey Value) (key : SeriesKey)
    (old new : Value) (name : string) :
  r !! key = Some old →
  size (filter (λ kv : SeriesKey * Value, kv.1.1 = name) (<[key := new]> r))
  = size (filter (λ kv : SeriesKey * Value, kv.1.1 = name) r).
Proof.
  intros Hold. destruct (decide (key.1 = name)) as [Heq|Hne].
  - rewrite map_filter_insert_True by done.
    apply map_size_insert_Some. exists old.
    by apply map_lookup_filter_Some.
  - by rewrite map_filter_insert_not.
Qed.

Lemma cardinality_insert_new (r : gmap SeriesKey Value) (key : SeriesKey)
    (new : Value) (name : string) :
  r !! key = None →
  size (filter (λ kv : SeriesKey * Value, kv.1.1 = name) (<[key := new]> r))
  = ((if decide (key.1 = name) then 1 else 0)
     + size (filter (λ kv : SeriesKey * Value, kv.1.1 = name) r))%nat.
Proof.
  intros Hnew. case_decide.
  - rewrite map_filter_insert_True by done.
    rewrite map_size_insert_None; [done|].
    apply map_lookup_filter_None. by left.
  - by rewrite map_filter_insert_not.
Qed.

(** The guard holds the bound: a registry within the maximum for a name is
    within it after a [record]. *)
Lemma record_cardinality_bounded (s : MetricSample) (r : Registry) (name : string) :
  (cardinality r name ≤ maxCardinality r)%nat →
  (cardinality (record s r).2 name ≤ maxCardinality r)%nat.
Proof.
  intros Hle. unfold record.
  destruct (series r !! identity s) as [acc|] eqn:Hkey.
  - unfold cardinality. simpl. by erewrite cardinality_insert_old.
  - case_decide as Hfull; [done|].
    unfold cardinality in *. simpl. rewrite cardinality_insert_new by done.
    case_decide as Hname; [|lia]. simpl in Hname. subst name. lia.
Qed.

Lemma records_cardinality_bounded (ss : list MetricSample) (max : nat)
    (name : string) :
  let r := foldl (λ r s, (record s r).2) (empty max) ss in
  (cardinality r name ≤ max)%nat ∧ maxCardinality r = max.
Proof.
  induction ss as [|s ss IH] using rev_ind; simpl.
  - split; [|done]. unfold cardinality. simpl.
    rewrite map_filter_empty, map_size_empty. lia.
  - rewrite foldl_app. simpl. destruct IH as [IH1 IH2].
    rewrite record_maxCardinality. split; [|done].
    rewrite <- IH2 at 2. apply record_cardinality_bounded. by rewrite IH2.
Qed.

(** * Properties of the certificate watcher *)

Section watcher_facts.

Import certwatcher.

Context (parseCertificate : string → option Certificate)
        (parsePrivateKey : string → option PrivateKey).

Lemma onChange_sound (c : Change) (w : Watcher) :
  (∀ b, current w = Some b → sound parseCertificate parsePrivateKey b) →
  ∀ b, current (onChange parseCertificate parsePrivateKey c w) = Some b →
       sound parseCertificate parsePrivateKey b.
Proof.
  intros Hw b. unfold onChange.
  destruct (validate parseCertificate parsePrivateKey
              (newCertificate c) (newKey c) (seenAt c)) eqn:Hv; simpl.
  - by intros [= <-].
  - apply Hw.
Qed.

(** The active bundle, on every path from the start, passed validation. *)
Lemma replay_sound (cs : list Change) (b : CertificateBundle) :
  current (replay parseCertificate parsePrivateKey cs initial) = Some b →
  sound parseCertificate parsePrivateKey b.
Proof.
  revert b. induction cs as [|c cs IH] using rev_ind; [done|].
  unfold replay. rewrite foldl_app. simpl. by apply onChange_sound.
Qed.

(** Any number of invalid pairs in a row leave the active bundle in
    place, and each counts as one read error. *)
Lemma invalid_changes_keep_bundle (cs : list Change) (w : Watcher) :
  Forall (λ c, validate parseCertificate parsePrivateKey
                 (newCertificate c) (newKey c) (seenAt c) = false) cs →
  let w' := replay parseCertificate parsePrivateKey cs w in
  current w' = current w
  ∧ readErrors w' = readErrors w + Z.of_nat (length cs)
  ∧ readTotal w' = readTotal w.
Proof.
  intros Hall. revert w. induction Hall as [|c cs Hc _ IH]; intros w; simpl.
  - split_and!; [done|lia|done].
  - destruct (IH (onChange parseCertificate parsePrivateKey c w)) as (-> & -> & ->).
    unfold onChange. rewrite Hc. simpl. split_and!; [done|lia|done].
Qed.

End watcher_facts.

(** C10: in any state that the watcher reaches from its start, a change
    whose pair fails validation adds one to
    [certwatcher_read_certificate_errors_total] and leaves the active
    bundle, the one that readers get, as it was; and the bundle that
    readers get has always passed validation, so no broken or half-written
    pair is served. *)
Theorem invalid_pair_keeps_bundle
    (parseCertificate : string → option certwatcher.Certificate)
    (parsePrivateKey : string → option certwatcher.PrivateKey)
    (history : list certwatcher.Change) (c : certwatcher.Change) :
  certwatcher.validate parseCertificate parsePrivateKey
    (certwatcher.newCertificate c) (certwatcher.newKey c) (certwatcher.seenAt c)
  = false →
  let w := certwatcher.replay parseCertificate parsePrivateKey history
             certwatcher.initial in
  let w' := certwatcher.onChange parseCertificate parsePrivateKey c w in
  certwatcher.readErrors w' = certwatcher.readErrors w + 1
  ∧ certwatcher.readTotal w' = certwatcher.readTotal w
  ∧ certwatcher.current w' = certwatcher.current w
  ∧ (∀ b, certwatcher.current w' = Some b →
          certwatcher.sound parseCertificate parsePrivateKey b).
Proof.
  intros Hbad w w'. unfold w', certwatcher.onChange. rewrite Hbad. simpl.
  split_and!; [done..|]. apply replay_sound.
Qed.

Lemma invalid_pair_keeps_bundle_witness :
  let w := certwatcher.replay democerts.parseCertificate democerts.parsePrivateKey
             [democerts.firstLoad] certwatcher.initial in
  let w' := certwatcher.onChange democerts.parseCertificate
              democerts.parsePrivateKey democerts.halfWritten w in
  certwatcher.readErrors w' = certwatcher.readErrors w + 1
  ∧ certwatcher.readTotal w' = certwatcher.readTotal w
  ∧ certwatcher.current w' = certwatcher.current w
  ∧ (∀ b, certwatcher.current w' = Some b →
          certwatcher.sound democerts.parseCertificate democerts.parsePrivateKey b).
Proof.
  apply (invalid_pair_keeps_bundle democerts.parseCertificate
           democerts.parsePrivateKey [democerts.firstLoad] democerts.halfWritten).
  reflexivity.
Defined.

(** The rotation caught halfway, in values: the first pair stays active
    at generation 1, one read, one read error. *)
Example half_written_rotation :
  let w' := certwatcher.replay democerts.parseCertificate democerts.parsePrivateKey
              [democerts.firstLoad; democerts.halfWritten] certwatcher.initial in
  certwatcher.current w'
  = Some {| certwatcher.certificateBytes := "cert-a";
            certwatcher.keyBytes := "key-a";
            certwatcher.loadedAt := 10;
            certwatcher.generation := 1 |}
  ∧ certwatcher.readTotal w' = 1
  ∧ certwatcher.readErrors w' = 1.
Proof. by vm_compute. Qed.

(** * Further properties of the resource's JSON form *)


(** A document that the schema admits is still admitted after a trip
    through the Go structs, with the message it had; and what is marshalled
    from a [Simple] is admitted exactly when its [Message] is not empty,
    the Go type itself putting no bound on it. *)
Theorem validate_through_structs (omitzero : bool) :
  (∀ r : v1.RawSimple,
     v1.validate r = true →
     v1.validate (jsonv1.marshal omitzero (v1.decode r)) = true
     ∧ v1.rawSpec (jsonv1.marshal omitzero (v1.decode r)) ≫= v1.rawMessage
       = v1.rawSpec r ≫= v1.rawMessage)
  ∧ (∀ o : v1.Simple,
       v1.validate (jsonv1.marshal omitzero o) = true
       ↔ v1.Message (v1.Spec o) ≠ EmptyString).
Proof.
  split.
  - intros [meta [[[m|]]|] st]; unfold v1.validate, v1.validateSpec; simpl; done.
  - intros [meta [msg] st]. unfold v1.validate, v1.validateSpec. simpl.
    rewrite bool_decide_eq_true. destruct msg; simpl; split; try done; lia.
Qed.

(** * Further properties of [Reconcile], against any client *)

(** Membership in a list of calls given call by call: take the cases. *)
Ltac among_calls :=
  repeat match goal with
         | H : _ ∈ _ :: _ |- _ => apply elem_of_cons in H
         | H : _ ∈ [] |- _ => apply elem_of_nil in H
         | H : _ ∨ _ |- _ => destruct H
         | H : _ ∧ _ |- _ => destruct H
         | H : ∃ _, _ |- _ => destruct H
         | H : False |- _ => destruct H
         end;
  simplify_eq.

Section protocol.

Context {W : Type} (c : Client W).

(** The runs of [Reconcile], all of them. *)
Lemma run_Reconcile_cases (req : ctrl.Request) (w : W) :
  let key := ctrl.NamespacedName req in
  let out := run c (controller.Reconcile req) w in
  let kvs simple := [("name", metav1.Name (v1.ObjectMeta simple));
                     ("message", v1.Message (v1.Spec simple))] in
  (∃ err, result out = (ctrl.emptyResult, IgnoreNotFound err)
          ∧ calls out = [GetCall key (inl err)])
  ∨ (∃ simple, v1.Replied (v1.Status simple) = true
               ∧ result out = (ctrl.emptyResult, None)
               ∧ calls out = [GetCall key (inr simple);
                              LogInfoCall "Hallo Welt!" (kvs simple)])
  ∨ (∃ simple upd, v1.Replied (v1.Status simple) = false
                   ∧ result out = (ctrl.emptyResult, upd)
                   ∧ calls out = [GetCall key (inr simple);
                                  LogInfoCall "Hallo Welt!" (kvs simple);
                                  StatusUpdateCall (v1.setReplied true simple) upd]).
Proof.
  intros key out kvs. unfold out.
  destruct (doGet c key w) as [[err|simple] w1] eqn:Hget.
  - left. exists err. by rewrite (run_Reconcile_get_error c req w w1 err Hget).
  - destruct (v1.Replied (v1.Status simple)) eqn:Hrep.
    + right; left. exists simple.
      by rewrite (run_Reconcile_replied c req w w1 simple Hget Hrep).
    + right; right.
      destruct (doStatusUpdate c (v1.setReplied true simple)
                  (doLogInfo c "Hallo Welt!" (kvs simple) w1)) as [upd w2] eqn:Hupd.
      exists simple, upd.
      by rewrite (run_Reconcile_pending c req w w1 w2 simple upd Hget Hrep Hupd).
Qed.

(** Whatever the client answers, [Reconcile] returns the empty
    [ctrl.Result]: it never asks for a requeue of its own.  The error it
    returns is one that a call of this invocation returned, and every
    failure of a call is returned but one: the not-found of [Get]. *)
Theorem Reconcile_result_and_errors (req : ctrl.Request) (w : W) :
  let out := run c (controller.Reconcile req) w in
  (result out).1 = ctrl.emptyResult
  ∧ (∀ e, (result out).2 = Some e ↔
          (GetCall (ctrl.NamespacedName req) (inl e) ∈ calls out ∧ e ≠ ErrNotFound)
          ∨ (∃ obj, StatusUpdateCall obj (Some e) ∈ calls out)).
Proof.
  intros out.
  destruct (run_Reconcile_cases req w)
    as [(err & Hres & Hcalls)|[(simple & Hrep & Hres & Hcalls)
                             |(simple & upd & Hrep & Hres & Hcalls)]];
    fold out in Hres, Hcalls; rewrite Hres, Hcalls; simpl; (split; [done|]);
    intros e; split.
  - intros He. left. unfold IgnoreNotFound in He.
    destruct err; simplify_eq/=; (split; [apply list_elem_of_here|done]).
  - intros Hin. among_calls.
    match goal with |- IgnoreNotFound ?x = _ => by destruct x end.
  - done.
  - intros Hin. among_calls.
  - intros ->. right. exists (v1.setReplied true simple).
    do 2 apply list_elem_of_further. apply list_elem_of_here.
  - intros Hin. by among_calls.
Qed.

(** The calls of one invocation.  [Get] for the requested key comes
    first and is the only fetch; there is at most one status write, and it
    is the last call.  The object written is the object fetched, found
    with [replied] false and changed in nothing but [replied]: its
    metadata, resource version included, and its spec go back as they
    came. *)
Theorem Reconcile_call_protocol (req : ctrl.Request) (w : W) :
  let cs := calls (run c (controller.Reconcile req) w) in
  (∃ res rest, cs = GetCall (ctrl.NamespacedName req) res :: rest)
  ∧ fetches cs = 1%nat
  ∧ (writes cs ≤ 1)%nat
  ∧ (∀ obj res,
       StatusUpdateCall obj res ∈ cs →
       last cs = Some (StatusUpdateCall obj res)
       ∧ ∃ simple,
           GetCall (ctrl.NamespacedName req) (inr simple) ∈ cs
           ∧ v1.Replied (v1.Status simple) = false
           ∧ obj = v1.setReplied true simple
           ∧ v1.ObjectMeta obj = v1.ObjectMeta simple
           ∧ v1.Spec obj = v1.Spec simple).
Proof.
  intros cs.
  destruct (run_Reconcile_cases req w)
    as [(err & _ & Hcalls)|[(simple & Hrep & _ & Hcalls)
                          |(simple & upd & Hrep & _ & Hcalls)]];
    fold cs in Hcalls; rewrite Hcalls.
  - split_and!; [by eexists _, _|done|cbv; lia|].
    intros obj res. rewrite elem_of_cons, elem_of_nil. by intros [[=]|[]].
  - split_and!; [by eexists _, _|done|cbv; lia|].
    intros obj res. rewrite !elem_of_cons, elem_of_nil. by intros [[=]|[[=]|[]]].
  - split_and!; [by eexists _, _|done|cbv; lia|].
    intros obj res. rewrite !elem_of_cons, elem_of_nil.
    intros [[=]|[[=]|[[= -> ->]|[]]]]. split; [done|].
    exists simple. split_and!; try done. by left.
Qed.

(** The log line.  An invocation whose fetch finds the object logs
    "Hallo Welt!" once, with the name and the message of the object found,
    whether [replied] is set or not; an invocation whose fetch fails logs
    nothing. *)
Theorem Reconcile_logs_once (req : ctrl.Request) (w : W) :
  let cs := calls (run c (controller.Reconcile req) w) in
  (∀ simple,
     GetCall (ctrl.NamespacedName req) (inr simple) ∈ cs →
     filter retries.isLog cs
     = [LogInfoCall "Hallo Welt!"
          [("name", metav1.Name (v1.ObjectMeta simple));
           ("message", v1.Message (v1.Spec simple))]])
  ∧ (∀ err,
       GetCall (ctrl.NamespacedName req) (inl err) ∈ cs →
       filter retries.isLog cs = []).
Proof.
  intros cs.
  destruct (run_Reconcile_cases req w)
    as [(err & _ & Hcalls)|[(simple & Hrep & _ & Hcalls)
                          |(simple & upd & Hrep & _ & Hcalls)]];
    fold cs in Hcalls; rewrite Hcalls; split.
  - intros simple. rewrite elem_of_cons, elem_of_nil. by intros [[=]|[]].
  - done.
  - intros s. rewrite !elem_of_cons, elem_of_nil. by intros [[= ->]|[[=]|[]]].
  - intros err. rewrite !elem_of_cons, elem_of_nil. by intros [[=]|[[=]|[]]].
  - intros s. rewrite !elem_of_cons, elem_of_nil. by intros [[= ->]|[[=]|[[=]|[]]]].
  - intros err. rewrite !elem_of_cons, elem_of_nil. by intros [[=]|[[=]|[[=]|[]]]].
Qed.

End protocol.

(** * Further properties of [Reconcile], against the API server *)

Import retries.

(** ** The store keeps its keys, the schedule runs down *)

Lemma interfere_wellKeyed (s : EnvStep)
    (objs : gmap types.NamespacedName v1.Simple) :
  (∀ k o, objs !! k = Some o → v1.keyOf o = k) →
  ∀ k o, interfere s objs !! k = Some o → v1.keyOf o = k.
Proof.
  intros Hwf k o. destruct s as [|k' msg|k'|e]; simpl; try apply Hwf.
  - destruct (objs !! k') as [o'|] eqn:Hk'; [|apply Hwf].
    case_match; [|apply Hwf].
    destruct (decide (k' = k)) as [->|Hne].
    + rewrite lookup_insert_eq. intros [= <-]. by apply (Hwf k o').
    + rewrite lookup_insert_ne by done. apply Hwf.
  - intros [_ Hk]%lookup_delete_Some. by apply Hwf.
Qed.

Lemma nextStep_wellKeyed (w : World) : wellKeyed w → wellKeyed (nextStep w).2.
Proof.
  unfold wellKeyed, nextStep. intros Hwf.
  destruct (schedule w) as [|s rest]; simpl; [done|].
  by apply interfere_wellKeyed.
Qed.

Lemma get_wellKeyed (key : types.NamespacedName) (w : World) :
  wellKeyed w → wellKeyed (get key w).2.
Proof.
  intros Hwf. apply nextStep_wellKeyed in Hwf. unfold get.
  destruct (nextStep w) as [s w']. simpl in Hwf.
  destruct (failure s); [done|]. by destruct (objects w' !! key).
Qed.

Lemma statusUpdate_wellKeyed (obj : v1.Simple) (w : World) :
  wellKeyed w → wellKeyed (statusUpdate obj w).2.
Proof.
  intros Hwf. apply nextStep_wellKeyed in Hwf. unfold statusUpdate.
  destruct (nextStep w) as [s w']. simpl in Hwf.
  destruct (failure s); [done|].
  destruct (objects w' !! v1.keyOf obj) as [cur|] eqn:Hcur; [|done].
  case_decide; [|done]. simpl. intros k o. unfold withObjects. simpl.
  destruct (decide (v1.keyOf obj = k)) as [<-|Hne].
  - rewrite lookup_insert_eq. intros [= <-]. by apply (Hwf _ cur).
  - rewrite lookup_insert_ne by done. apply Hwf.
Qed.

(** What [Get] finds is what the store holds under the key when [Get]
    returns. *)
Lemma get_found (key : types.NamespacedName) (w w1 : World) (simple : v1.Simple) :
  get key w = (inr simple, w1) → objects w1 !! key = Some simple.
Proof.
  unfold get. destruct (nextStep w) as [s w'].
  destruct (failure s); [done|].
  destruct (objects w' !! key) eqn:Hk; by intros [= <- <-].
Qed.

Lemma get_schedule (key : types.NamespacedName) (w : World) :
  schedule (get key w).2 = tail (schedule w).
Proof.
  unfold get, nextStep. destruct (schedule w) as [|s rest] eqn:Hs; simpl.
  - by destruct (objects w !! key).
  - destruct (failure s); [done|]. by destruct (interfere s (objects w) !! key).
Qed.

Lemma statusUpdate_schedule (obj : v1.Simple) (w : World) :
  schedule (statusUpdate obj w).2 = tail (schedule w).
Proof.
  unfold statusUpdate, nextStep. destruct (schedule w) as [|s rest] eqn:Hs; simpl.
  - destruct (objects w !! v1.keyOf obj); [|done]. by case_decide.
  - destruct (failure s); [done|].
    destruct (interfere s (objects w) !! v1.keyOf obj); [|done]. by case_decide.
Qed.

(** The three ways through one invocation, with the worlds in between. *)
Lemma reconcile_cases (req : ctrl.Request) (w : World) :
  let key := ctrl.NamespacedName req in
  let out := reconcile req w in
  let kvs simple := [("name", metav1.Name (v1.ObjectMeta simple));
                     ("message", v1.Message (v1.Spec simple))] in
  (∃ err, get key w = (inl err, final out)
          ∧ result out = (ctrl.emptyResult, IgnoreNotFound err)
          ∧ calls out = [GetCall key (inl err)])
  ∨ (∃ simple w1, get key w = (inr simple, w1)
                  ∧ v1.Replied (v1.Status simple) = true
                  ∧ final out = logInfo "Hallo Welt!" (kvs simple) w1
                  ∧ result out = (ctrl.emptyResult, None)
                  ∧ writes (calls out) = 0%nat)
  ∨ (∃ simple w1 upd,
       get key w = (inr simple, w1)
       ∧ v1.Replied (v1.Status simple) = false
       ∧ statusUpdate (v1.setReplied true simple)
           (logInfo "Hallo Welt!" (kvs simple) w1) = (upd, final out)
       ∧ result out = (ctrl.emptyResult, upd)).
Proof.
  intros key out kvs. unfold out, reconcile.
  destruct (get key w) as [[err|simple] w1] eqn:Hget.
  - left. exists err.
    by rewrite (run_Reconcile_get_error server req w w1 err Hget).
  - destruct (v1.Replied (v1.Status simple)) eqn:Hrep.
    + right; left. exists simple, w1.
      by rewrite (run_Reconcile_replied server req w w1 simple Hget Hrep).
    + right; right.
      destruct (statusUpdate (v1.setReplied true simple)
                  (logInfo "Hallo Welt!" (kvs simple) w1)) as [upd w2] eqn:Hupd.
      exists simple, w1, upd.
      by rewrite (run_Reconcile_pending server req w w1 w2 simple upd Hget Hrep Hupd).
Qed.

Lemma reconcile_wellKeyed (req : ctrl.Request) (w : World) :
  wellKeyed w → wellKeyed (final (reconcile req w)).
Proof.
  intros Hwf.
  pose proof (get_wellKeyed (ctrl.NamespacedName req) w Hwf) as Hg.
  destruct (reconcile_cases req w)
    as [(err & Hget & _)|[(simple & w1 & Hget & _ & -> & _)
                        |(simple & w1 & upd & Hget & _ & Hupd & _)]];
    rewrite Hget in Hg; simpl in Hg; [done..|].
  pose proof (statusUpdate_wellKeyed (v1.setReplied true simple)
                (logInfo "Hallo Welt!"
                   [("name", metav1.Name (v1.ObjectMeta simple));
                    ("message", v1.Message (v1.Spec simple))] w1) Hg) as Hu.
  by rewrite Hupd in Hu.
Qed.

Lemma reconcile_schedule (req : ctrl.Request) (w : World) :
  (length (schedule (final (reconcile req w))) ≤ pred (length (schedule w)))%nat.
Proof.
  pose proof (get_schedule (ctrl.NamespacedName req) w) as Hg.
  destruct (reconcile_cases req w)
    as [(err & Hget & _)|[(simple & w1 & Hget & _ & -> & _)
                        |(simple & w1 & upd & Hget & _ & Hupd & _)]];
    rewrite Hget in Hg; simpl in Hg.
  - rewrite Hg. by destruct (schedule w).
  - simpl. rewrite Hg. by destruct (schedule w).
  - pose proof (statusUpdate_schedule (v1.setReplied true simple)
                  (logInfo "Hallo Welt!"
                     [("name", metav1.Name (v1.ObjectMeta simple));
                      ("message", v1.Message (v1.Spec simple))] w1)) as Hu.
    rewrite Hupd in Hu. simpl in Hu. rewrite Hu, Hg.
    destruct (schedule w) as [|? [|? ?]]; simpl; lia.
Qed.

(** ** A quiet environment *)

Lemma get_quiet (key : types.NamespacedName) (w : World) :
  schedule w = [] →
  get key w = (match objects w !! key with
               | Some o => inr o
               | None => inl ErrNotFound
               end, w).
Proof.
  intros Hs. unfold get, nextStep. rewrite Hs. simpl.
  by destruct (objects w !! key).
Qed.

Lemma statusUpdate_quiet (obj cur : v1.Simple) (w : World) :
  schedule w = [] →
  objects w !! v1.keyOf obj = Some cur →
  metav1.ResourceVersion (v1.ObjectMeta cur)
  = metav1.ResourceVersion (v1.ObjectMeta obj) →
  statusUpdate obj w
  = (None, withObjects
             (<[v1.keyOf obj := writeStatus (v1.Status obj) cur]> (objects w)) w).
Proof.
  intros Hs Hcur Hrv. unfold statusUpdate, nextStep. rewrite Hs. simpl.
  rewrite Hcur. by rewrite decide_True.
Qed.

(** One invocation with nobody else at work, in full. *)
Lemma reconcile_quiet (req : ctrl.Request) (w : World) :
  schedule w = [] → wellKeyed w →
  let key := ctrl.NamespacedName req in
  let out := reconcile req w in
  result out = (ctrl.emptyResult, None)
  ∧ schedule (final out) = []
  ∧ match objects w !! key with
    | Some o =>
        if v1.Replied (v1.Status o)
        then objects (final out) = objects w ∧ writes (calls out) = 0%nat
        else objects (final out)
             = <[key := writeStatus {| v1.Replied := true |} o]> (objects w)
             ∧ writes (calls out) = 1%nat
    | None => objects (final out) = objects w ∧ writes (calls out) = 0%nat
    end.
Proof.
  intros Hs Hwf key out. unfold out, reconcile.
  pose proof (get_quiet key w Hs) as Hget.
  destruct (objects w !! key) as [o|] eqn:Hk.
  - destruct (v1.Replied (v1.Status o)) eqn:Hrep.
    + by rewrite (run_Reconcile_replied server req w w o Hget Hrep).
    + set (kvs := [("name", metav1.Name (v1.ObjectMeta o));
                   ("message", v1.Message (v1.Spec o))]).
      assert (v1.keyOf (v1.setReplied true o) = key) as Hkey
        by exact (Hwf key o Hk).
      pose proof (statusUpdate_quiet (v1.setReplied true o) o
                    (logInfo "Hallo Welt!" kvs w)) as Hupd.
      rewrite Hkey in Hupd. specialize (Hupd Hs Hk eq_refl).
      by rewrite (run_Reconcile_pending server req w w _ o None Hget Hrep Hupd).
  - by rewrite (run_Reconcile_get_error server req w w ErrNotFound Hget).
Qed.

Lemma reconcile_quiet_settled (req : ctrl.Request) (w : World) :
  schedule w = [] → wellKeyed w →
  repliedAt (ctrl.NamespacedName req) (final (reconcile req w)) ≠ Some false.
Proof.
  intros Hs Hwf. destruct (reconcile_quiet req w Hs Hwf) as (_ & _ & Hobjs).
  unfold repliedAt.
  destruct (objects w !! ctrl.NamespacedName req) as [o|] eqn:Hk.
  - destruct (v1.Replied (v1.Status o)) eqn:Hrep; destruct Hobjs as [-> _].
    + rewrite ?Hk. simpl. by rewrite Hrep.
    + by rewrite lookup_insert_eq.
  - destruct Hobjs as [-> _]. by rewrite ?Hk.
Qed.

(** With nobody else at work and the store keyed by name, one invocation
    always succeeds and leaves the requested record with [replied] true,
    if the record is there.  It touches nothing else: every other object,
    and the spec and the generation of the record itself, are as they
    were. *)
Theorem Reconcile_quiet_sets_replied (req : ctrl.Request) (w : World) :
  schedule w = [] → wellKeyed w →
  let key := ctrl.NamespacedName req in
  let out := reconcile req w in
  result out = (ctrl.emptyResult, None)
  ∧ repliedAt key (final out) = (λ _, true) <$> repliedAt key w
  ∧ (∀ k, k ≠ key → objects (final out) !! k = objects w !! k)
  ∧ v1.Spec <$> objects (final out) !! key = v1.Spec <$> objects w !! key
  ∧ generationAt key (final out) = generationAt key w.
Proof.
  intros Hs Hwf key out.
  destruct (reconcile_quiet req w Hs Hwf) as (Hres & _ & Hobjs).
  fold key out in Hres, Hobjs. split; [done|].
  unfold repliedAt, generationAt.
  destruct (objects w !! key) as [o|] eqn:Hk.
  - destruct (v1.Replied (v1.Status o)) eqn:Hrep; destruct Hobjs as [-> _].
    + rewrite ?Hk. simpl. rewrite Hrep. done.
    + rewrite !lookup_insert_eq. simpl.
      split_and!; try done. intros k Hne. by rewrite lookup_insert_ne.
  - destruct Hobjs as [-> _]. by rewrite ?Hk.
Qed.

Lemma Reconcile_quiet_sets_replied_witness :
  let w := demo.world false [] in
  let out := reconcile demo.request w in
  result out = (ctrl.emptyResult, None)
  ∧ repliedAt demo.key (final out) = (λ _, true) <$> repliedAt demo.key w
  ∧ (∀ k, k ≠ demo.key → objects (final out) !! k = objects w !! k)
  ∧ v1.Spec <$> objects (final out) !! demo.key = v1.Spec <$> objects w !! demo.key
  ∧ generationAt demo.key (final out) = generationAt demo.key w.
Proof.
  apply (Reconcile_quiet_sets_replied demo.request (demo.world false [])).
  - reflexivity.
  - intros k o. unfold demo.world. simpl.
    intros [<- <-]%lookup_singleton_Some. reflexivity.
Defined.

(** With nobody else at work, a second invocation for the same request
    finds nothing left to do: it succeeds without a write and leaves the
    store as the first invocation left it. *)
Theorem Reconcile_quiet_idempotent (req : ctrl.Request) (w : World) :
  schedule w = [] → wellKeyed w →
  let w1 := final (reconcile req w) in
  let again := reconcile req w1 in
  result again = (ctrl.emptyResult, None)
  ∧ writes (calls again) = 0%nat
  ∧ objects (final again) = objects w1.
Proof.
  intros Hs Hwf w1 again.
  destruct (reconcile_quiet req w Hs Hwf) as (_ & Hs1 & Hobjs).
  fold w1 in Hs1, Hobjs.
  pose proof (reconcile_wellKeyed req w Hwf) as Hwf1. fold w1 in Hwf1.
  destruct (reconcile_quiet req w1 Hs1 Hwf1) as (Hres & _ & Hagain).
  fold again in Hres, Hagain. split; [done|].
  pose proof (reconcile_quiet_settled req w Hs Hwf) as Hset. fold w1 in Hset.
  unfold repliedAt in Hset.
  destruct (objects w1 !! ctrl.NamespacedName req) as [o1|]; [|by destruct Hagain].
  simpl in Hset. destruct (v1.Replied (v1.Status o1)); [by destruct Hagain|done].
Qed.

Lemma Reconcile_quiet_idempotent_witness :
  let w1 := final (reconcile demo.request (demo.world false [])) in
  let again := reconcile demo.request w1 in
  result again = (ctrl.emptyResult, None)
  ∧ writes (calls again) = 0%nat
  ∧ objects (final again) = objects w1.
Proof.
  apply (Reconcile_quiet_idempotent demo.request (demo.world false [])).
  - reflexivity.
  - intros k o. unfold demo.world. simpl.
    intros [<- <-]%lookup_singleton_Some. reflexivity.
Defined.

(** ** Under any schedule *)

(** What success means.  When an invocation returns no error, in a store
    keyed by name, either its fetch answered not-found or the requested
    record is stored with [replied] true when the invocation ends. *)
Theorem Reconcile_success_means (req : ctrl.Request) (w : World) :
  wellKeyed w →
  let key := ctrl.NamespacedName req in
  let out := reconcile req w in
  (result out).2 = None →
  GetCall key (inl ErrNotFound) ∈ calls out
  ∨ repliedAt key (final out) = Some true.
Proof.
  intros Hwf key out Hok. subst out key.
  pose proof (get_wellKeyed (ctrl.NamespacedName req) w Hwf) as Hwf1.
  destruct (reconcile_cases req w)
    as [(err & Hget & Hres & Hcalls)|[(simple & w1 & Hget & Hrep & Hfin & _)
                                    |(simple & w1 & upd & Hget & _ & Hupd & Hres)]].
  - left. rewrite Hres in Hok. rewrite Hcalls. unfold IgnoreNotFound in Hok.
    destruct err; simplify_eq/=. apply list_elem_of_here.
  - right. rewrite Hfin. unfold repliedAt. simpl.
    by rewrite (get_found _ w w1 simple Hget), <- Hrep.
  - right. rewrite Hres in Hok. simpl in Hok. subst upd.
    rewrite Hget in Hwf1. simpl in Hwf1.
    assert (v1.keyOf simple = ctrl.NamespacedName req) as Hkey
      by exact (Hwf1 _ simple (get_found _ w w1 simple Hget)).
    revert Hupd. unfold statusUpdate.
    destruct (nextStep _) as [s w']. destruct (failure s); [done|].
    change (v1.keyOf (v1.setReplied true simple)) with (v1.keyOf simple).
    rewrite Hkey.
    destruct (objects w' !! ctrl.NamespacedName req) as [cur|]; [|done].
    case_decide; [|done]. intros [= <-].
    unfold repliedAt, withObjects. simpl. by rewrite lookup_insert_eq.
Qed.

Lemma Reconcile_success_means_witness :
  let out := reconcile demo.request (demo.world false []) in
  GetCall demo.key (inl ErrNotFound) ∈ calls out
  ∨ repliedAt demo.key (final out) = Some true.
Proof.
  apply (Reconcile_success_means demo.request (demo.world false [])).
  - intros k o. unfold demo.world. simpl.
    intros [<- <-]%lookup_singleton_Some. reflexivity.
  - reflexivity.
Defined.

(** What an invocation never does, whatever the others do meanwhile: it
    never brings a record into the store, and it never takes [replied]
    back from true to false. *)
Theorem Reconcile_never_creates_nor_resets (req : ctrl.Request) (w : World)
    (k : types.NamespacedName) :
  let w' := final (reconcile req w) in
  (objects w !! k = None → objects w' !! k = None)
  ∧ (repliedAt k w = Some true → repliedAt k w' ≠ Some false).
Proof.
  intros w'. pose proof (reconcile_advances req k w) as Hadv. fold w' in Hadv.
  unfold advances, repliedAt in *. split.
  - intros Hk. rewrite Hk in Hadv. simpl in Hadv.
    destruct (objects w' !! k); [|done]. by destruct Hadv as [?|[?|[? _]]].
  - intros Hk. rewrite Hk in Hadv.
    destruct Hadv as [->|[->|[[=] _]]]; done.
Qed.

(** ** The caller's retries *)

Lemma reconcileTimes_settled (n : nat) (req : ctrl.Request)
    (k : types.NamespacedName) (w : World) :
  repliedAt k w ≠ Some false → repliedAt k (reconcileTimes n req w) ≠ Some false.
Proof.
  revert w. induction n as [|n IH]; intros w Hw; simpl; [done|].
  apply IH. pose proof (reconcile_advances req k w) as Hadv.
  destruct Hadv as [->|[->|[? _]]]; done.
Qed.

Lemma reconcileTimes_wellKeyed (n : nat) (req : ctrl.Request) (w : World) :
  wellKeyed w → wellKeyed (reconcileTimes n req w).
Proof.
  revert w. induction n as [|n IH]; intros w Hw; simpl; [done|].
  by apply IH, reconcile_wellKeyed.
Qed.

(** Retrying converges.  Each invocation uses up at least one step of the
    schedule; once the others have had all their steps, with conflicts,
    failed calls and spec edits among them, the next invocation finds the
    environment quiet.  So after more invocations than the schedule has
    steps, the requested record has [replied] true, unless it is gone. *)
Theorem retries_converge (n : nat) (req : ctrl.Request) (w : World) :
  wellKeyed w →
  (length (schedule w) < n)%nat →
  repliedAt (ctrl.NamespacedName req) (reconcileTimes n req w) ≠ Some false.
Proof.
  revert w. induction n as [|n IH]; intros w Hwf Hlen; [lia|]. simpl.
  destruct (schedule w) as [|s rest] eqn:Hs.
  - by apply reconcileTimes_settled, reconcile_quiet_settled.
  - apply IH; [by apply reconcile_wellKeyed|].
    pose proof (reconcile_schedule req w) as Hle. rewrite Hs in Hle.
    simpl in *. lia.
Qed.

Lemma retries_converge_witness :
  repliedAt demo.key
    (reconcileTimes 3 demo.request
       (demo.world false [Quiet; EditSpec demo.key "Hej"]))
  ≠ Some false.
Proof.
  apply (retries_converge 3 demo.request
           (demo.world false [Quiet; EditSpec demo.key "Hej"])).
  - intros k o. unfold demo.world. simpl.
    intros [<- <-]%lookup_singleton_Some. reflexivity.
  - simpl. lia.
Defined.

(** The conflict of the walk-through, retried: the first invocation ends
    with the conflict, the second sets [replied] on the edited record. *)
Example conflict_then_retry :
  let w := demo.world false [Quiet; EditSpec demo.key "Hej"] in
  (result (reconcile demo.request w)).2 = Some ErrConflict
  ∧ repliedAt demo.key (reconcileTimes 1 demo.request w) = Some false
  ∧ repliedAt demo.key (reconcileTimes 2 demo.request w) = Some true
  ∧ generationAt demo.key (reconcileTimes 2 demo.request w) = Some 2.
Proof. split_and!; vm_compute; reflexivity. Qed.
